(** * Wallet output reconciliation: [applyDiff] and [ReceiveTransactionPoolUpdate]

    A shallow embedding of the wallet's reconciliation core
    (wallet/update.go, as found in src/types/block_bench_test.go):

    - [Wallet.keys] is the Go map [map[types.UnlockHash]*spendableKey];
      each key holds [outputs map[types.SiacoinOutputID]*knownOutput].
      Every [*knownOutput] pointer is stored in exactly one map slot and is
      never shared, so a map of values models the in-place pointer writes.
    - A Go [panic] (the [build.DEBUG] assertion, or the runtime nil-pointer
      dereference of [key.outputs[scod.ID].spendable = false] on a missing
      entry) is the [RPanic] outcome of [Result].
    - [w.age] is a Go [int] (64 bits): its updates wrap around.

    It also embeds the host price conversions of modules/host.go (as found
    in src/modules/host.go) over [types.Currency]. *)

From stdpp Require Import base gmap list.
From Stdlib Require Import ZArith Lia.

Open Scope Z_scope.

(** ** Data model *)

(** [crypto.Hash]-based identifiers: an address and an output id. *)
Abbreviation Hash := N.
Abbreviation UnlockHash := Hash.
Abbreviation SiacoinOutputID := Hash.
Abbreviation Currency := N.

(** [modules.DiffDirection]: [DiffApply] is [true], [DiffRevert] is [false]. *)
Inductive DiffDirection := DiffApply | DiffRevert.

#[global] Instance DiffDirection_eq_dec : EqDecision DiffDirection.
Proof. solve_decision. Defined.

(** [types.SiacoinOutput]. *)
Record SiacoinOutput := mkSiacoinOutput {
  Value : Currency;
  OutputUnlockHash : UnlockHash
}.

(** [modules.SiacoinOutputDiff]; the Go field [SiacoinOutput] is [scod_output]. *)
Record SiacoinOutputDiff := mkSiacoinOutputDiff {
  Direction : DiffDirection;
  ID : SiacoinOutputID;
  scod_output : SiacoinOutput
}.

(** [knownOutput] ([ko_age] is the Go field [age]). *)
Record knownOutput := mkKnownOutput {
  ko_id : SiacoinOutputID;
  ko_output : SiacoinOutput;
  spendable : bool;
  ko_age : Z
}.

(** [spendableKey]: only its [outputs] map is read or written here. *)
Record spendableKey := mkSpendableKey {
  outputs : gmap SiacoinOutputID knownOutput
}.

(** Blocks and transactions are opaque to this code: only the lengths of
    the block lists are used, and the transaction list is ignored. *)
Abbreviation Block := N.
Abbreviation Transaction := (list N).

(** [modules.ConsensusChange] (the fields used here). *)
Record ConsensusChange := mkConsensusChange {
  RevertedBlocks : list Block;
  AppliedBlocks : list Block;
  SiacoinOutputDiffs : list SiacoinOutputDiff
}.

(** The [Wallet] fields touched by the reconciliation code. *)
Record Wallet := mkWallet {
  keys : gmap UnlockHash spendableKey;
  unconfirmedDiffs : list SiacoinOutputDiff;
  age : Z
}.

(** Go [int] arithmetic on a 64-bit platform. *)
Definition int_wrap (z : Z) : Z := (z + 2 ^ 63) mod 2 ^ 64 - 2 ^ 63.
Definition int_range (z : Z) : Prop := - 2 ^ 63 <= z < 2 ^ 63.

(** ** Outcomes: a normal return or a Go panic *)

Inductive PanicMsg :=
  | PanicDeleteMissing   (** "trying to delete an output that doesn't exist?" *)
  | NilPointerDereference.

Inductive Result (A : Type) :=
  | ROk (a : A)
  | RPanic (m : PanicMsg).
Arguments ROk {A} a.
Arguments RPanic {A} m.

#[global] Instance Result_ret : MRet Result := fun A a => ROk a.
#[global] Instance Result_bind : MBind Result := fun A B f r =>
  match r with ROk a => f a | RPanic m => RPanic m end.

(** ** Wallet updates *)

Definition set_keys (w : Wallet) (ks : gmap UnlockHash spendableKey) : Wallet :=
  mkWallet ks (unconfirmedDiffs w) (age w).

(** [key.outputs[id] = ko] for the key stored under [addr]. *)
Definition set_output (w : Wallet) (addr : UnlockHash) (key : spendableKey)
    (id : SiacoinOutputID) (ko : knownOutput) : Wallet :=
  set_keys w (<[addr := mkSpendableKey (<[id := ko]> (outputs key))]> (keys w)).

Definition set_spendable (ko : knownOutput) (b : bool) : knownOutput :=
  mkKnownOutput (ko_id ko) (ko_output ko) b (ko_age ko).

(** The ledger entry for output [id] under address [addr], if any. *)
Definition lookup_output (w : Wallet) (addr : UnlockHash) (id : SiacoinOutputID)
    : option knownOutput :=
  keys w !! addr ≫= fun key => outputs key !! id.

Section Reconcile.

(** [build.DEBUG]. *)
Variable DEBUG : bool.

(** [func (w *Wallet) applyDiff(scod modules.SiacoinOutputDiff, dir modules.DiffDirection)] *)
Definition applyDiff (w : Wallet) (scod : SiacoinOutputDiff) (dir : DiffDirection)
    : Result Wallet :=
  let addr := OutputUnlockHash (scod_output scod) in
  match keys w !! addr with
  | None => ROk w
  | Some key =>
      if decide (Direction scod = dir) then
        match outputs key !! ID scod with
        | Some output =>
            if negb (spendable output)
            then ROk (set_output w addr key (ID scod) (set_spendable output true))
            else ROk w
        | None =>
            let ko := mkKnownOutput (ID scod) (scod_output scod) true 0 in
            ROk (set_output w addr key (ID scod) ko)
        end
      else
        if DEBUG && bool_decide (outputs key !! ID scod = None)
        then RPanic PanicDeleteMissing
        else
          match outputs key !! ID scod with
          | Some output => ROk (set_output w addr key (ID scod) (set_spendable output false))
          | None => RPanic NilPointerDereference
          end
  end.

(** The pure loop [for _, d := range l { w.applyDiff(d, dir) }]. *)
Fixpoint applyAll (dir : DiffDirection) (l : list SiacoinOutputDiff) (w : Wallet)
    : Result Wallet :=
  match l with
  | [] => ROk w
  | d :: l' => w' ← applyDiff w d dir; applyAll dir l' w'
  end.

End Reconcile.

(** ** The reconciliation as a state, panic and trace monad

    The trace records the steps the coordinator performs, in order: each
    [applyDiff] call, the write of [w.unconfirmedDiffs], the two writes of
    [w.age] and the call of [w.notifySubscribers()]. The trace survives a
    panic, so it shows how far a panicking call got. *)

Inductive Event :=
  | EvApplyDiff (d : SiacoinOutputDiff) (dir : DiffDirection)
  | EvSetUnconfirmed (l : list SiacoinOutputDiff)
  | EvAgeSub (n : Z)
  | EvAgeAdd (n : Z)
  | EvNotify.

Definition M (A : Type) : Type := Wallet -> Result (A * Wallet) * list Event.

#[global] Instance M_ret : MRet M := fun A a w => (ROk (a, w), []).
#[global] Instance M_bind : MBind M := fun A B f m w =>
  match m w with
  | (ROk (a, w'), t) => let '(r, t') := f a w' in (r, t ++ t')
  | (RPanic e, t) => (RPanic e, t)
  end.

Definition get_wallet : M Wallet := fun w => (ROk (w, w), []).

Section Coordinator.

Variable DEBUG : bool.

Definition applyDiffM (scod : SiacoinOutputDiff) (dir : DiffDirection) : M unit :=
  fun w =>
    (match applyDiff DEBUG w scod dir with
     | ROk w' => ROk (tt, w')
     | RPanic e => RPanic e
     end, [EvApplyDiff scod dir]).

(** [for _, diff := range l { w.applyDiff(diff, dir) }] *)
Fixpoint applyDiffs (l : list SiacoinOutputDiff) (dir : DiffDirection) : M unit :=
  match l with
  | [] => mret tt
  | d :: l' => applyDiffM d dir ;; applyDiffs l' dir
  end.

(** [w.unconfirmedDiffs = l] *)
Definition setUnconfirmed (l : list SiacoinOutputDiff) : M unit :=
  fun w => (ROk (tt, mkWallet (keys w) l (age w)), [EvSetUnconfirmed l]).

(** [w.age -= n] *)
Definition ageSub (n : Z) : M unit :=
  fun w => (ROk (tt, mkWallet (keys w) (unconfirmedDiffs w) (int_wrap (age w - n))),
            [EvAgeSub n]).

(** [w.age += n] *)
Definition ageAdd (n : Z) : M unit :=
  fun w => (ROk (tt, mkWallet (keys w) (unconfirmedDiffs w) (int_wrap (age w + n))),
            [EvAgeAdd n]).

(** [w.notifySubscribers()]: an external hook, observed through the trace. *)
Definition notifySubscribers : M unit := fun w => (ROk (tt, w), [EvNotify]).

(** [func (w *Wallet) ReceiveTransactionPoolUpdate(cc modules.ConsensusChange,
    _ []types.Transaction, unconfirmedSiacoinDiffs []modules.SiacoinOutputDiff)].
    The whole body runs under [w.mu], so it is one atomic step of the
    wallet; the transaction list is the blank parameter [_]. *)
Definition ReceiveTransactionPoolUpdate (cc : ConsensusChange) (_ : list Transaction)
    (unconfirmedSiacoinDiffs : list SiacoinOutputDiff) : M unit :=
  w ← get_wallet;
  applyDiffs (unconfirmedDiffs w) DiffRevert ;;
  applyDiffs (SiacoinOutputDiffs cc) DiffApply ;;
  setUnconfirmed unconfirmedSiacoinDiffs ;;
  w ← get_wallet;
  applyDiffs (unconfirmedDiffs w) DiffApply ;;
  ageSub (Z.of_nat (length (RevertedBlocks cc))) ;;
  ageAdd (Z.of_nat (length (AppliedBlocks cc))) ;;
  notifySubscribers.

End Coordinator.

(** The wallet a run ends in, or its panic. *)
Definition final {A} (r : Result (A * Wallet) * list Event) : Result Wallet :=
  match fst r with ROk (_, w) => ROk w | RPanic e => RPanic e end.

(** The number of notifications in a trace. *)
Fixpoint notify_count (t : list Event) : nat :=
  match t with
  | [] => O
  | EvNotify :: t' => S (notify_count t')
  | _ :: t' => notify_count t'
  end.

(** The address a diff is about. *)
Definition diff_addr (d : SiacoinOutputDiff) : UnlockHash := OutputUnlockHash (scod_output d).

(** The trace [ReceiveTransactionPoolUpdate] is meant to produce, step by
    step as the spec orders them (unwind, confirm, re-overlay, age, notify). *)
Definition ev (dir : DiffDirection) (d : SiacoinOutputDiff) : Event := EvApplyDiff d dir.

Definition steps_before_age (old : list SiacoinOutputDiff) (cc : ConsensusChange)
    (unc : list SiacoinOutputDiff) : list Event :=
  map (ev DiffRevert) old ++ map (ev DiffApply) (SiacoinOutputDiffs cc) ++
  [EvSetUnconfirmed unc] ++ map (ev DiffApply) unc.

Definition reconcile_steps (old : list SiacoinOutputDiff) (cc : ConsensusChange)
    (unc : list SiacoinOutputDiff) : list Event :=
  steps_before_age old cc unc ++
  [EvAgeSub (Z.of_nat (length (RevertedBlocks cc)));
   EvAgeAdd (Z.of_nat (length (AppliedBlocks cc)));
   EvNotify].

(** The state-only reading of [ReceiveTransactionPoolUpdate], phase by
    phase; [RTPU_spec] proves it is what the monadic run computes. *)
Definition reconcile (DEBUG : bool) (cc : ConsensusChange) (unc : list SiacoinOutputDiff)
    (w : Wallet) : Result Wallet :=
  w1 ← applyAll DEBUG DiffRevert (unconfirmedDiffs w) w;
  w2 ← applyAll DEBUG DiffApply (SiacoinOutputDiffs cc) w1;
  w3 ← applyAll DEBUG DiffApply unc (mkWallet (keys w2) unc (age w2));
  ROk (mkWallet (keys w3) (unconfirmedDiffs w3)
         (int_wrap (int_wrap (age w3 - Z.of_nat (length (RevertedBlocks cc)))
                    + Z.of_nat (length (AppliedBlocks cc))))).

(** Ledger entries are never deleted, re-created or given a new id,
    payload or age: at most their [spendable] flag changes. *)
Definition entries_kept (w w' : Wallet) : Prop :=
  (forall a, is_Some (keys w !! a) -> is_Some (keys w' !! a)) /\
  (forall a i o, lookup_output w a i = Some o ->
     exists b, lookup_output w' a i = Some (set_spendable o b)).

(** ** General lemmas *)

Section Lemmas.

Variable DEBUG : bool.

Lemma lookup_set_output w a key i o a' i' :
  keys w !! a = Some key ->
  lookup_output (set_output w a key i o) a' i' =
  if decide ((a, i) = (a', i')) then Some o else lookup_output w a' i'.
Proof.
  intros Hk. unfold lookup_output, set_output, set_keys; cbn.
  destruct (decide (a = a')) as [<-|Ha].
  - rewrite lookup_insert_eq, Hk; cbn.
    destruct (decide (i = i')) as [<-|Hi].
    + rewrite decide_True by reflexivity. by rewrite lookup_insert_eq.
    + rewrite decide_False by congruence. by rewrite lookup_insert_ne.
  - rewrite decide_False by congruence. by rewrite lookup_insert_ne.
Qed.

Lemma keys_set_output w a key i o a' :
  keys w !! a = Some key ->
  is_Some (keys (set_output w a key i o) !! a') <-> is_Some (keys w !! a').
Proof.
  intros Hk. unfold set_output, set_keys; cbn.
  destruct (decide (a = a')) as [<-|Ha].
  - rewrite lookup_insert_eq, Hk. split; eauto.
  - by rewrite lookup_insert_ne.
Qed.

Lemma set_spendable_twice o b b' : set_spendable (set_spendable o b) b' = set_spendable o b'.
Proof. reflexivity. Qed.

Lemma set_spendable_same o : set_spendable o (spendable o) = o.
Proof. by destruct o. Qed.

(** Every normal return of [applyDiff] writes at most the diff's own entry,
    and an existing entry only gets a new [spendable] flag. *)
Lemma applyDiff_ok_shape w d dir w' :
  applyDiff DEBUG w d dir = ROk w' ->
  w' = w \/
  exists key o, keys w !! diff_addr d = Some key /\
    w' = set_output w (diff_addr d) key (ID d) o /\
    (forall old, outputs key !! ID d = Some old -> exists b, o = set_spendable old b).
Proof.
  unfold applyDiff, diff_addr.
  destruct (keys w !! _) as [key|] eqn:Hk; [|intros [= <-]; by left].
  destruct (decide (Direction d = dir)).
  - destruct (outputs key !! ID d) as [old|] eqn:Ho.
    + destruct (negb (spendable old)); intros [= <-]; [|by left].
      right. exists key, (set_spendable old true). split; [done|split; [done|]].
      intros old' Hold. rewrite Ho in Hold. injection Hold as <-. eauto.
    + intros [= <-]. right. eexists _, _. split; [done|split; [done|]].
      intros old' Hold; congruence.
  - destruct (DEBUG && _); [done|].
    destruct (outputs key !! ID d) as [old|] eqn:Ho; [|done].
    intros [= <-]. right. exists key, (set_spendable old false).
    split; [done|split; [done|]]. intros old' Hold. rewrite Ho in Hold. injection Hold as <-. eauto.
Qed.

Lemma applyDiff_meta w d dir w' :
  applyDiff DEBUG w d dir = ROk w' ->
  unconfirmedDiffs w' = unconfirmedDiffs w /\ age w' = age w.
Proof.
  intros H. destruct (applyDiff_ok_shape _ _ _ _ H) as [->|(key & o & _ & -> & _)];
    done.
Qed.

Lemma applyAll_meta dir l w w' :
  applyAll DEBUG dir l w = ROk w' ->
  unconfirmedDiffs w' = unconfirmedDiffs w /\ age w' = age w.
Proof.
  revert w. induction l as [|d l IH]; intros w; cbn.
  - by intros [= ->].
  - destruct (applyDiff DEBUG w d dir) as [w1|] eqn:H1; [|done]. cbn.
    intros H. destruct (IH _ H) as [-> ->]. by apply (applyDiff_meta w d dir).
Qed.

Lemma entries_kept_refl w : entries_kept w w.
Proof. split; [done|]. intros a i o ->. exists (spendable o). by rewrite set_spendable_same. Qed.

Lemma entries_kept_trans w1 w2 w3 :
  entries_kept w1 w2 -> entries_kept w2 w3 -> entries_kept w1 w3.
Proof.
  intros [K1 E1] [K2 E2]. split; [eauto|].
  intros a i o H. destruct (E1 _ _ _ H) as [b Hb]. destruct (E2 _ _ _ Hb) as [b' Hb'].
  exists b'. by rewrite Hb', set_spendable_twice.
Qed.

Lemma applyDiff_entries_kept w d dir w' :
  applyDiff DEBUG w d dir = ROk w' -> entries_kept w w'.
Proof.
  intros H. destruct (applyDiff_ok_shape _ _ _ _ H) as [->|(key & o & Hk & -> & Ho)].
  - apply entries_kept_refl.
  - split.
    + intros a'. by rewrite keys_set_output.
    + intros a i old Hold. rewrite (lookup_set_output _ _ _ _ _ _ _ Hk).
      case_decide as Heq.
      * injection Heq as <- <-. unfold lookup_output in Hold. rewrite Hk in Hold.
        cbn in Hold. destruct (Ho _ Hold) as [b ->]. eauto.
      * exists (spendable old). by rewrite set_spendable_same.
Qed.

Lemma applyAll_entries_kept dir l w w' :
  applyAll DEBUG dir l w = ROk w' -> entries_kept w w'.
Proof.
  revert w. induction l as [|d l IH]; intros w; cbn.
  - intros [= ->]. apply entries_kept_refl.
  - destruct (applyDiff DEBUG w d dir) as [w1|] eqn:H1; [|done]. cbn.
    intros H. eapply entries_kept_trans; [eapply applyDiff_entries_kept; eauto|eauto].
Qed.

End Lemmas.

Section Runs.

Variable DEBUG : bool.

(** A loop of [applyDiff] calls traces one event per call; when a call
    panics the trace stops at that call. *)
Lemma applyDiffs_spec l dir w :
  match applyAll DEBUG dir l w with
  | ROk w' => applyDiffs DEBUG l dir w = (ROk (tt, w'), map (ev dir) l)
  | RPanic e => exists t, applyDiffs DEBUG l dir w = (RPanic e, t) /\
                          t `prefix_of` map (ev dir) l
  end.
Proof.
  revert w. induction l as [|d l IH]; intros w; [done|].
  cbn [applyDiffs applyAll]. unfold mbind, M_bind, Result_bind, applyDiffM.
  destruct (applyDiff DEBUG w d dir) as [w1|e] eqn:H1.
  - specialize (IH w1). destruct (applyAll DEBUG dir l w1) as [w2|e].
    + by rewrite IH.
    + destruct IH as (t & -> & Ht). eexists; split; [reflexivity|].
      by apply (prefix_app [ev dir d]).
  - eexists; split; [reflexivity|]. exists (map (ev dir) l). reflexivity.
Qed.

Ltac phase l dir w :=
  let H := fresh "H" in
  pose proof (applyDiffs_spec l dir w) as H;
  let r := fresh "r" in
  destruct (applyAll DEBUG dir l w) as [r|?];
  [rewrite H; clear H | destruct H as (? & H & ?); rewrite H; clear H].

(** [ReceiveTransactionPoolUpdate] computes [reconcile] and traces
    [reconcile_steps]; a panicking call stops inside the diff phases. *)
Lemma RTPU_spec cc txs unc w :
  match reconcile DEBUG cc unc w with
  | ROk w' => ReceiveTransactionPoolUpdate DEBUG cc txs unc w =
                (ROk (tt, w'), reconcile_steps (unconfirmedDiffs w) cc unc)
  | RPanic e => exists t, ReceiveTransactionPoolUpdate DEBUG cc txs unc w = (RPanic e, t) /\
                t `prefix_of` steps_before_age (unconfirmedDiffs w) cc unc
  end.
Proof.
  unfold ReceiveTransactionPoolUpdate, reconcile, reconcile_steps, steps_before_age.
  unfold mbind, M_bind, Result_bind, get_wallet.
  phase (unconfirmedDiffs w) DiffRevert w.
  2:{ eexists; split; [reflexivity|]. by apply prefix_app_r. }
  phase (SiacoinOutputDiffs cc) DiffApply r.
  2:{ eexists; split; [reflexivity|]. cbn. apply prefix_app. by apply prefix_app_r. }
  unfold setUnconfirmed. cbn -[applyDiffs applyAll].
  phase unc DiffApply (mkWallet (keys r0) unc (age r0)).
  2:{ eexists; split; [reflexivity|]. cbn. rewrite ?app_nil_r.
      apply prefix_app, prefix_app. by apply (prefix_app [_]). }
  cbn. f_equal. rewrite ?app_nil_r, <- ?app_assoc. reflexivity.
Qed.

End Runs.

Section MoreLemmas.

Variable DEBUG : bool.

Lemma lookup_output_keys w w' a i :
  keys w' = keys w -> lookup_output w' a i = lookup_output w a i.
Proof. unfold lookup_output. by intros ->. Qed.

Lemma entries_kept_keys w w' : keys w' = keys w -> entries_kept w w'.
Proof.
  intros Hk. split; [by rewrite Hk|].
  intros a i o H. exists (spendable o).
  by rewrite set_spendable_same, (lookup_output_keys w w').
Qed.

(** On an existing entry [applyDiff] never panics and sets [spendable] to
    whether the diff's direction is the pass direction. *)
Lemma applyDiff_existing w d dir o :
  lookup_output w (diff_addr d) (ID d) = Some o ->
  exists w', applyDiff DEBUG w d dir = ROk w' /\
    lookup_output w' (diff_addr d) (ID d) = Some (set_spendable o (bool_decide (Direction d = dir))) /\
    (forall a i, (a, i) <> (diff_addr d, ID d) -> lookup_output w' a i = lookup_output w a i) /\
    (forall a, is_Some (keys w' !! a) <-> is_Some (keys w !! a)).
Proof.
  intros H. unfold lookup_output in H.
  destruct (keys w !! diff_addr d) as [key|] eqn:Hk; cbn in H; [|discriminate].
  unfold applyDiff. change (OutputUnlockHash (scod_output d)) with (diff_addr d).
  rewrite Hk. destruct (decide (Direction d = dir)) as [Hd|Hd].
  - rewrite (bool_decide_true (Direction d = dir)) by done. rewrite H.
    destruct (spendable o) eqn:Hs; cbn.
    + eexists; split; [reflexivity|]. split; [|done].
      unfold lookup_output. rewrite Hk; cbn. rewrite H, <- Hs. by rewrite set_spendable_same.
    + eexists; split; [reflexivity|].
      rewrite (lookup_set_output _ _ _ _ _ _ _ Hk), decide_True by done.
      split; [done|split].
      * intros a i Hne. rewrite (lookup_set_output _ _ _ _ _ _ _ Hk).
        by rewrite decide_False by congruence.
      * intros a. by rewrite keys_set_output.
  - rewrite (bool_decide_false (Direction d = dir)) by done. rewrite H.
    rewrite (bool_decide_false (Some o = None)) by discriminate. rewrite andb_false_r.
    eexists; split; [reflexivity|].
    rewrite (lookup_set_output _ _ _ _ _ _ _ Hk), decide_True by done.
    split; [done|split].
    + intros a i Hne. rewrite (lookup_set_output _ _ _ _ _ _ _ Hk).
      by rewrite decide_False by congruence.
    + intros a. by rewrite keys_set_output.
Qed.

Lemma int_wrap_sub_add x r a :
  int_wrap (int_wrap (x - r) + a) = int_wrap (x + (a - r)).
Proof.
  unfold int_wrap. f_equal.
  replace (x - r + 2 ^ 63) with (x + (a - r) + 2 ^ 63 - a) by lia.
  replace ((x + (a - r) + 2 ^ 63 - a) mod 2 ^ 64 - 2 ^ 63 + a + 2 ^ 63)
    with ((x + (a - r) + 2 ^ 63 - a) mod 2 ^ 64 + a) by lia.
  rewrite Zplus_mod_idemp_l. f_equal. lia.
Qed.

Lemma int_wrap_small z : int_range z -> int_wrap z = z.
Proof.
  unfold int_range, int_wrap. intros Hz.
  rewrite Z.mod_small; lia.
Qed.

Lemma notify_count_app t1 t2 : notify_count (t1 ++ t2) = (notify_count t1 + notify_count t2)%nat.
Proof. induction t1 as [|[] t1 IH]; cbn; lia. Qed.

Lemma notify_count_map_ev dir l : notify_count (map (ev dir) l) = O.
Proof. by induction l. Qed.

Lemma notify_count_steps_before_age old cc unc :
  notify_count (steps_before_age old cc unc) = O.
Proof.
  unfold steps_before_age. rewrite !notify_count_app, !notify_count_map_ev. done.
Qed.

Lemma notify_count_prefix t l : t `prefix_of` l -> notify_count l = O -> notify_count t = O.
Proof. intros [k ->]. rewrite notify_count_app. lia. Qed.

End MoreLemmas.

(** ** Entry-wise view of [applyDiff]

    [applyDiff] reads and writes one entry, the cell [(diff_addr d, ID d)]:
    [step_cell] is its effect on that entry, [put_cell] the write-back. *)

Definition cell (d : SiacoinOutputDiff) : UnlockHash * SiacoinOutputID := (diff_addr d, ID d).

Definition step_cell (DEBUG : bool) (c : option knownOutput) (d : SiacoinOutputDiff)
    (dir : DiffDirection) : Result knownOutput :=
  if decide (Direction d = dir) then
    match c with
    | Some output => if negb (spendable output) then ROk (set_spendable output true) else ROk output
    | None => ROk (mkKnownOutput (ID d) (scod_output d) true 0)
    end
  else
    if DEBUG && bool_decide (c = None) then RPanic PanicDeleteMissing
    else match c with
         | Some output => ROk (set_spendable output false)
         | None => RPanic NilPointerDereference
         end.

Definition put_cell (w : Wallet) (a : UnlockHash) (i : SiacoinOutputID) (o : knownOutput) : Wallet :=
  match keys w !! a with Some key => set_output w a key i o | None => w end.

Section Cells.

Variable DEBUG : bool.

Lemma wallet_ext w z :
  unconfirmedDiffs w = unconfirmedDiffs z -> age w = age z ->
  (forall a, is_Some (keys w !! a) <-> is_Some (keys z !! a)) ->
  (forall a i, lookup_output w a i = lookup_output z a i) -> w = z.
Proof.
  destruct w as [kw pw aw], z as [kz pz az]; cbn. intros -> -> Hd Hl. f_equal.
  apply map_eq. intros a. specialize (Hd a).
  destruct (kw !! a) as [k1|] eqn:E1, (kz !! a) as [k2|] eqn:E2.
  - f_equal. destruct k1 as [m1], k2 as [m2]. f_equal. apply map_eq. intros i.
    specialize (Hl a i). unfold lookup_output in Hl; cbn in Hl. rewrite E1, E2 in Hl.
    exact Hl.
  - exfalso. destruct (proj1 Hd) as [? [=]]; eauto.
  - exfalso. destruct (proj2 Hd) as [? [=]]; eauto.
  - done.
Qed.

Lemma set_output_id w a key i o :
  keys w !! a = Some key -> outputs key !! i = Some o -> set_output w a key i o = w.
Proof.
  intros Hk Ho. unfold set_output, set_keys. rewrite (insert_id (outputs key) i o) by done.
  destruct key as [m]. cbn in *. rewrite (insert_id (keys w) a) by done. by destruct w.
Qed.

Lemma applyDiff_cell w d dir :
  applyDiff DEBUG w d dir =
  match keys w !! diff_addr d with
  | None => ROk w
  | Some _ => o ← step_cell DEBUG (lookup_output w (diff_addr d) (ID d)) d dir;
              ROk (put_cell w (diff_addr d) (ID d) o)
  end.
Proof.
  unfold applyDiff, put_cell, lookup_output.
  change (OutputUnlockHash (scod_output d)) with (diff_addr d).
  destruct (keys w !! diff_addr d) as [key|] eqn:Hk; [|done]. cbn.
  unfold step_cell. destruct (decide (Direction d = dir)).
  - destruct (outputs key !! ID d) as [o|] eqn:Ho; [|done].
    destruct (negb (spendable o)); [done|]. cbn. by rewrite set_output_id.
  - destruct (DEBUG && _); [done|]. by destruct (outputs key !! ID d).
Qed.

Lemma put_cell_meta w a i o :
  unconfirmedDiffs (put_cell w a i o) = unconfirmedDiffs w /\ age (put_cell w a i o) = age w.
Proof. unfold put_cell. by destruct (keys w !! a). Qed.

Lemma put_cell_dom w a i o a' :
  is_Some (keys (put_cell w a i o) !! a') <-> is_Some (keys w !! a').
Proof.
  unfold put_cell. destruct (keys w !! a) eqn:Hk; [|done]. by apply keys_set_output.
Qed.

Lemma lookup_put_cell w a i o a' i' :
  is_Some (keys w !! a) ->
  lookup_output (put_cell w a i o) a' i' =
  if decide ((a, i) = (a', i')) then Some o else lookup_output w a' i'.
Proof.
  intros [key Hk]. unfold put_cell. rewrite Hk. by apply lookup_set_output.
Qed.

Lemma applyDiff_dom w d dir w' a :
  applyDiff DEBUG w d dir = ROk w' -> is_Some (keys w' !! a) <-> is_Some (keys w !! a).
Proof.
  intros H. destruct (applyDiff_ok_shape DEBUG _ _ _ _ H) as [->|(key & o & Hk & -> & _)];
    [done|by apply keys_set_output].
Qed.

Lemma applyDiff_frame w d dir w' a i :
  applyDiff DEBUG w d dir = ROk w' -> (a, i) <> cell d ->
  lookup_output w' a i = lookup_output w a i.
Proof.
  intros H Hne. destruct (applyDiff_ok_shape DEBUG _ _ _ _ H) as [->|(key & o & Hk & -> & _)];
    [done|]. rewrite (lookup_set_output _ _ _ _ _ _ _ Hk). unfold cell in Hne.
  by rewrite decide_False by congruence.
Qed.

Lemma is_Some_None_iff {A B} (x : option A) (y : option B) :
  (is_Some x <-> is_Some y) -> x = None -> y = None.
Proof. intros H ->. apply eq_None_not_Some. intros Hy. by apply H in Hy as [? ?]. Qed.

(** Two [applyDiff] calls on different cells commute. *)
Lemma applyDiff_comm w d1 x1 d2 x2 w1 w2 :
  cell d1 <> cell d2 ->
  applyDiff DEBUG w d1 x1 = ROk w1 -> applyDiff DEBUG w1 d2 x2 = ROk w2 ->
  exists w1', applyDiff DEBUG w d2 x2 = ROk w1' /\ applyDiff DEBUG w1' d1 x1 = ROk w2.
Proof.
  intros Hne H1 H2.
  assert (D1 := fun a => applyDiff_dom w d1 x1 w1 a H1).
  assert (D2 := fun a => applyDiff_dom w1 d2 x2 w2 a H2).
  rewrite applyDiff_cell in H1.
  destruct (keys w !! diff_addr d1) as [k1|] eqn:K1.
  2:{ injection H1 as <-. exists w2. split; [done|]. rewrite applyDiff_cell.
      by rewrite (is_Some_None_iff _ _ (iff_sym (D2 (diff_addr d1))) K1). }
  destruct (step_cell DEBUG (lookup_output w (diff_addr d1) (ID d1)) d1 x1) as [o1|] eqn:S1;
    [|done]. cbn in H1. injection H1 as <-.
  assert (P1 : is_Some (keys w !! diff_addr d1)) by eauto.
  rewrite applyDiff_cell in H2.
  destruct (keys (put_cell w (diff_addr d1) (ID d1) o1) !! diff_addr d2) as [k2|] eqn:K2.
  2:{ injection H2 as <-. exists w. split.
      - rewrite applyDiff_cell.
        by rewrite (is_Some_None_iff _ _ (D1 (diff_addr d2)) K2).
      - rewrite applyDiff_cell, K1, S1. done. }
  assert (P2 : is_Some (keys w !! diff_addr d2)) by (apply D1; eauto).
  rewrite (lookup_put_cell _ _ _ _ _ _ P1) in H2.
  unfold cell in Hne. rewrite decide_False in H2 by done.
  destruct (step_cell DEBUG (lookup_output w (diff_addr d2) (ID d2)) d2 x2) as [o2|] eqn:S2;
    [|done]. cbn in H2. injection H2 as <-.
  exists (put_cell w (diff_addr d2) (ID d2) o2). split.
  - rewrite applyDiff_cell. destruct P2 as [k2' ->]. by rewrite S2.
  - rewrite applyDiff_cell.
    assert (P2' : is_Some (keys (put_cell w (diff_addr d2) (ID d2) o2) !! diff_addr d1))
      by (by apply put_cell_dom).
    destruct P2' as [k ->].
    rewrite (lookup_put_cell _ _ _ _ _ _ P2), decide_False by congruence.
    rewrite S1. cbn. f_equal. apply wallet_ext.
    + by rewrite !(proj1 (put_cell_meta _ _ _ _)).
    + by rewrite !(proj2 (put_cell_meta _ _ _ _)).
    + intros a. by rewrite !put_cell_dom.
    + assert (P1' : is_Some (keys (put_cell w (diff_addr d2) (ID d2) o2) !! diff_addr d1))
        by (by apply put_cell_dom).
      assert (P2'' : is_Some (keys (put_cell w (diff_addr d1) (ID d1) o1) !! diff_addr d2))
        by (by apply put_cell_dom).
      intros a i.
      rewrite (lookup_put_cell _ _ _ _ _ _ P1'), (lookup_put_cell _ _ _ _ _ _ P2'').
      rewrite (lookup_put_cell _ _ _ _ _ _ P2), (lookup_put_cell _ _ _ _ _ _ P1).
      repeat case_decide; congruence.
Qed.

End Cells.

(** ** Unwinding an overlay

    [flips w d]: applying [d] forward to [w] changes its entry's status (a
    creating diff meets a missing or unspendable entry, a spending diff a
    spendable one), or [d] is for an address the wallet does not control. *)
Definition flips (w : Wallet) (d : SiacoinOutputDiff) : bool :=
  match keys w !! diff_addr d with
  | None => true
  | Some _ =>
      match Direction d, lookup_output w (diff_addr d) (ID d) with
      | DiffApply, None => true
      | DiffApply, Some o => negb (spendable o)
      | DiffRevert, Some o => spendable o
      | DiffRevert, None => false
      end
  end.

(** Two entries agree on their [spendable] status, where a missing entry
    may stand for a retained unspendable one. *)
Definition cell_rel (x y : option knownOutput) : Prop :=
  spendable <$> x = spendable <$> y \/ (x = None /\ spendable <$> y = Some false).

(** Two ledgers with the same addresses whose entries agree by [cell_rel]. *)
Definition ledger_rel (w z : Wallet) : Prop :=
  (forall a, is_Some (keys w !! a) <-> is_Some (keys z !! a)) /\
  (forall a i, cell_rel (lookup_output w a i) (lookup_output z a i)).

Section Unwind.

Variable DEBUG : bool.

Lemma final_RTPU cc txs unc w :
  final (ReceiveTransactionPoolUpdate DEBUG cc txs unc w) = reconcile DEBUG cc unc w.
Proof.
  pose proof (RTPU_spec DEBUG cc txs unc w) as H.
  destruct (reconcile DEBUG cc unc w); [by rewrite H|].
  destruct H as (t & -> & _). done.
Qed.

Lemma ledger_rel_refl w : ledger_rel w w.
Proof. split; [done|]. intros a i. by left. Qed.

Lemma ledger_rel_trans w1 w2 w3 : ledger_rel w1 w2 -> ledger_rel w2 w3 -> ledger_rel w1 w3.
Proof.
  intros [D1 R1] [D2 R2]. split; [intros a; rewrite (D1 a); exact (D2 a)|].
  intros a i. specialize (R1 a i). specialize (R2 a i). unfold cell_rel in *.
  destruct (lookup_output w1 a i), (lookup_output w2 a i), (lookup_output w3 a i);
    cbn in *; intuition congruence.
Qed.

Lemma ledger_rel_keys_r w z z' : keys z' = keys z -> ledger_rel w z -> ledger_rel w z'.
Proof.
  intros Hk [D R]. split; [intros a; by rewrite Hk|].
  intros a i. by rewrite (lookup_output_keys z z').
Qed.

Lemma ledger_rel_keys_l w w' z : keys w' = keys w -> ledger_rel w z -> ledger_rel w' z.
Proof.
  intros Hk [D R]. split; [intros a; by rewrite Hk|].
  intros a i. by rewrite (lookup_output_keys w w').
Qed.

Lemma applyAll_dom dir L w w' a :
  applyAll DEBUG dir L w = ROk w' -> is_Some (keys w' !! a) <-> is_Some (keys w !! a).
Proof.
  revert w. induction L as [|d L IH]; intros w; cbn; [by intros [= ->]|].
  destruct (applyDiff DEBUG w d dir) as [w1|] eqn:E; [|done]. cbn. intros H.
  rewrite (IH _ H). by apply (applyDiff_dom DEBUG w d dir).
Qed.

(** An [applyDiff] call moves to the front of a loop on other cells. *)
Lemma applyDiff_applyAll_comm d x dir L w w' w2 :
  Forall (fun e => cell e <> cell d) L ->
  applyDiff DEBUG w d x = ROk w' -> applyAll DEBUG dir L w' = ROk w2 ->
  exists w1, applyAll DEBUG dir L w = ROk w1 /\ applyDiff DEBUG w1 d x = ROk w2.
Proof.
  intros HF. revert w w'. induction HF as [|e L He HF IH]; intros w w' H1 H2.
  - cbn in H2. injection H2 as ->. eauto.
  - cbn in H2. destruct (applyDiff DEBUG w' e dir) as [we'|] eqn:E; [|done]. cbn in H2.
    destruct (applyDiff_comm DEBUG w d x e dir w' we') as (we & Ew & Ewe); [congruence|done|done|].
    destruct (IH _ _ Ewe H2) as (w1 & A & B). exists w1. cbn. by rewrite Ew.
Qed.

Lemma flips_frame w z e :
  (is_Some (keys w !! diff_addr e) <-> is_Some (keys z !! diff_addr e)) ->
  lookup_output w (diff_addr e) (ID e) = lookup_output z (diff_addr e) (ID e) ->
  flips w e = flips z e.
Proof.
  intros D L. unfold flips. rewrite L.
  destruct (keys w !! diff_addr e) eqn:K1, (keys z !! diff_addr e) eqn:K2; try done.
  - exfalso. destruct (proj1 D) as [? [=]]; eauto.
  - exfalso. destruct (proj2 D) as [? [=]]; eauto.
Qed.

(** Applying then reverting one diff that [flips] restores its entry's
    status and touches no other entry. *)
Lemma cancel_one w d :
  flips w d = true ->
  exists w2, (w1 ← applyDiff DEBUG w d DiffApply; applyDiff DEBUG w1 d DiffRevert) = ROk w2 /\
    ledger_rel w w2 /\
    (forall a i, (a, i) <> cell d -> lookup_output w2 a i = lookup_output w a i) /\
    (forall a, is_Some (keys w2 !! a) <-> is_Some (keys w !! a)).
Proof.
  intros Hf. unfold flips in Hf.
  destruct (keys w !! diff_addr d) as [key|] eqn:Hk.
  2:{ exists w. rewrite (applyDiff_cell DEBUG w d DiffApply), Hk. cbn.
      rewrite (applyDiff_cell DEBUG w d DiffRevert), Hk.
      split; [done|]. split; [apply ledger_rel_refl|done]. }
  assert (Hout : forall w2, lookup_output w2 (diff_addr d) (ID d) = lookup_output w (diff_addr d) (ID d) \/
                   (lookup_output w (diff_addr d) (ID d) = None /\
                    spendable <$> lookup_output w2 (diff_addr d) (ID d) = Some false) ->
                 (forall a i, (a, i) <> cell d -> lookup_output w2 a i = lookup_output w a i) ->
                 (forall a, is_Some (keys w2 !! a) <-> is_Some (keys w !! a)) ->
                 ledger_rel w w2).
  { intros w2 Hc Ho Hd. split; [intros a; by rewrite Hd|]. intros a i.
    destruct (decide ((a, i) = cell d)) as [Heq|Hne].
    - unfold cell in Heq. injection Heq as -> ->. unfold cell_rel.
      destruct Hc as [->|[-> ?]]; [by left|by right].
    - rewrite (Ho a i Hne). by left. }
  destruct (lookup_output w (diff_addr d) (ID d)) as [o|] eqn:Ho.
  - destruct (applyDiff_existing DEBUG w d DiffApply o Ho) as (w1 & E1 & L1 & O1 & D1).
    destruct (applyDiff_existing DEBUG w1 d DiffRevert _ L1) as (w2 & E2 & L2 & O2 & D2).
    rewrite set_spendable_twice in L2.
    assert (Hs : bool_decide (Direction d = DiffRevert) = spendable o).
    { destruct (Direction d), (spendable o); cbn in Hf; done. }
    rewrite Hs, set_spendable_same in L2.
    assert (O : forall a i, (a, i) <> cell d -> lookup_output w2 a i = lookup_output w a i).
    { intros a i Hne. unfold cell in Hne. rewrite O2, O1; done. }
    assert (D : forall a, is_Some (keys w2 !! a) <-> is_Some (keys w !! a)).
    { intros a. by rewrite D2, D1. }
    exists w2. rewrite E1. cbn. split; [done|]. split; [|done].
    apply Hout; [left; exact L2|done|done].
  - destruct (Direction d) eqn:Hdir; [|done].
    set (ko := mkKnownOutput (ID d) (scod_output d) true 0).
    assert (E1 : applyDiff DEBUG w d DiffApply = ROk (put_cell w (diff_addr d) (ID d) ko)).
    { rewrite applyDiff_cell, Hk, Ho. unfold step_cell. by rewrite decide_True. }
    assert (P : is_Some (keys w !! diff_addr d)) by eauto.
    assert (L1 : lookup_output (put_cell w (diff_addr d) (ID d) ko) (diff_addr d) (ID d) = Some ko).
    { rewrite (lookup_put_cell _ _ _ _ _ _ P). by rewrite decide_True. }
    destruct (applyDiff_existing DEBUG _ d DiffRevert _ L1) as (w2 & E2 & L2 & O2 & D2).
    rewrite Hdir in L2. cbn in L2.
    assert (O : forall a i, (a, i) <> cell d -> lookup_output w2 a i = lookup_output w a i).
    { intros a i Hne. rewrite O2 by done. rewrite (lookup_put_cell _ _ _ _ _ _ P).
      unfold cell in Hne. by rewrite decide_False by congruence. }
    assert (D : forall a, is_Some (keys w2 !! a) <-> is_Some (keys w !! a)).
    { intros a. by rewrite D2, put_cell_dom. }
    exists w2. rewrite E1. cbn. split; [done|]. split; [|done].
    apply Hout; [right; by rewrite L2|done|done].
Qed.

(** Applying then reverting an overlay whose diffs are on distinct cells
    and all [flips] restores every entry's status. *)
Lemma cancel_all U Y :
  NoDup (map cell U) -> Forall (fun d => flips Y d = true) U ->
  exists Z, (X ← applyAll DEBUG DiffApply U Y; applyAll DEBUG DiffRevert U X) = ROk Z /\
    ledger_rel Y Z.
Proof.
  revert Y. induction U as [|d U IH]; intros Y Hnd Hf.
  - exists Y. split; [done|apply ledger_rel_refl].
  - inversion Hnd as [|? ? Hnotin Hnd']; subst. inversion Hf as [|? ? Hfd Hf']; subst.
    assert (Hne : Forall (fun e => cell e <> cell d) U).
    { apply Forall_forall. intros e He Heq. apply Hnotin. rewrite <- Heq.
      apply list_elem_of_In, in_map, list_elem_of_In, He. }
    destruct (cancel_one Y d Hfd) as (Y1 & E & R1 & O1 & D1).
    destruct (applyDiff DEBUG Y d DiffApply) as [X1|] eqn:E1; [|done]. cbn in E.
    assert (Hf1 : Forall (fun e => flips Y1 e = true) U).
    { apply Forall_forall. intros e He. rewrite <- (proj1 (Forall_forall _ _) Hf' e He).
      apply flips_frame; [apply D1|]. apply O1.
      change (diff_addr e, ID e) with (cell e). exact (proj1 (Forall_forall _ _) Hne e He). }
    destruct (IH Y1 Hnd' Hf1) as (Z & E' & R2).
    destruct (applyAll DEBUG DiffApply U Y1) as [A|] eqn:EA; [|done]. cbn in E'.
    destruct (applyDiff_applyAll_comm d DiffRevert DiffApply U X1 Y1 A Hne E EA)
      as (X2 & EX2 & EX2').
    exists Z. split; [|by eapply ledger_rel_trans].
    cbn [applyAll]. unfold mbind, Result_bind. rewrite E1, EX2, EX2'. exact E'.
Qed.

Lemma step_cell_rel cy cz d dir oy :
  cell_rel cy cz -> step_cell DEBUG cy d dir = ROk oy ->
  exists oz, step_cell DEBUG cz d dir = ROk oz /\ spendable oz = spendable oy.
Proof.
  unfold step_cell. intros Hr Hy. destruct (decide (Direction d = dir)).
  - assert (Hm : forall c o, (match c with
                   | Some output => if negb (spendable output) then ROk (set_spendable output true)
                                    else ROk output
                   | None => ROk (mkKnownOutput (ID d) (scod_output d) true 0)
                   end) = ROk o -> spendable o = true).
    { intros [o'|] o Ho; [|by injection Ho as <-].
      destruct (spendable o') eqn:Hs; cbn in Ho; injection Ho as <-; done. }
    rewrite (Hm _ _ Hy).
    destruct cz as [o'|].
    + destruct (spendable o') eqn:Hs; cbn; eexists; (split; [reflexivity|done]).
    + eexists; split; [reflexivity|done].
  - destruct cy as [oy0|].
    + rewrite bool_decide_false, andb_false_r in Hy by discriminate. injection Hy as <-.
      destruct Hr as [Hr|[? _]]; [|done].
      destruct cz as [oz0|]; [|discriminate].
      rewrite bool_decide_false, andb_false_r by discriminate.
      eexists; split; [reflexivity|done].
    + by destruct DEBUG.
Qed.

Lemma sim_one Y Z d dir Y' :
  ledger_rel Y Z -> applyDiff DEBUG Y d dir = ROk Y' ->
  exists Z', applyDiff DEBUG Z d dir = ROk Z' /\ ledger_rel Y' Z'.
Proof.
  intros [D R] H. rewrite applyDiff_cell in H |- *.
  destruct (keys Y !! diff_addr d) as [ky|] eqn:KY.
  - assert (PY : is_Some (keys Y !! diff_addr d)) by eauto.
    assert (PZ : is_Some (keys Z !! diff_addr d)) by (by apply D).
    destruct PZ as [kz KZ]. rewrite KZ.
    assert (PZ : is_Some (keys Z !! diff_addr d)) by eauto.
    destruct (step_cell DEBUG (lookup_output Y (diff_addr d) (ID d)) d dir) as [oy|] eqn:S;
      [|done]. cbn in H. injection H as <-.
    destruct (step_cell_rel _ _ d dir oy (R (diff_addr d) (ID d)) S) as (oz & Sz & Hs).
    rewrite Sz. cbn. eexists; split; [reflexivity|]. split.
    + intros a. rewrite !put_cell_dom. apply D.
    + intros a i. rewrite (lookup_put_cell _ _ _ _ _ _ PY), (lookup_put_cell _ _ _ _ _ _ PZ).
      case_decide; [left; cbn; by rewrite Hs|apply R].
  - injection H as <-. exists Z. split; [|done].
    by rewrite (is_Some_None_iff _ _ (D (diff_addr d)) KY).
Qed.

Lemma sim_all Y Z dir L Y' :
  ledger_rel Y Z -> applyAll DEBUG dir L Y = ROk Y' ->
  exists Z', applyAll DEBUG dir L Z = ROk Z' /\ ledger_rel Y' Z'.
Proof.
  revert Y Z. induction L as [|d L IH]; intros Y Z HR H; cbn in *.
  - injection H as <-. eauto.
  - destruct (applyDiff DEBUG Y d dir) as [Y1|] eqn:E; [|done]. cbn in H.
    destruct (sim_one Y Z d dir Y1 HR E) as (Z1 & EZ & HR1).
    rewrite EZ. cbn. eauto.
Qed.

End Unwind.

(** ** Host price conversions (modules/host.go)

    [types.Currency] wraps a [big.Int] that is never negative: [N].
    [NewCurrency64] embeds a [uint64]; [Mul], [Div] and [Cmp] are the exact
    [big.Int] operations, [Div] being Euclidean division (the floor on
    non-negative values; every divisor below is a non-zero constant).
    [types.SiacoinPrecision] is 10^24 hastings. *)

Definition SiacoinPrecision : Currency := (10 ^ 24)%N.
Definition NewCurrency64 (x : N) : Currency := x.
Definition Currency_Mul (x y : Currency) : Currency := (x * y)%N.
Definition Currency_Div (x y : Currency) : Currency := (x / y)%N.
Definition Currency_Cmp (x y : Currency) : comparison := N.compare x y.

(** [types.ErrUint64Overflow]. *)
Inductive CurrencyError := ErrUint64Overflow.

(** [math.MaxUint64]. *)
Definition MaxUint64 : N := (2 ^ 64 - 1)%N.

(** [func (x Currency) Uint64() (u uint64, err error)]: values above
    [math.MaxUint64] give [(0, ErrUint64Overflow)]. *)
Definition Currency_Uint64 (x : Currency) : N * option CurrencyError :=
  if (MaxUint64 <? x)%N then (0%N, Some ErrUint64Overflow) else (x, None).

(** [func BandwidthPriceToConsensus(siacoinsTB uint64) (hastingsByte types.Currency)] *)
Definition BandwidthPriceToConsensus (siacoinsTB : N) : Currency :=
  let hastingsTB := Currency_Mul (NewCurrency64 siacoinsTB) SiacoinPrecision in
  Currency_Div hastingsTB (NewCurrency64 (10 ^ 12)).

(** [func BandwidthPriceToHuman(hastingsByte types.Currency) (siacoinsTB uint64, err error)];
    [x.Cmp(y) < 0] is [Currency_Cmp x y = Lt]. *)
Definition BandwidthPriceToHuman (hastingsByte : Currency) : N * option CurrencyError :=
  let hastingsTB := Currency_Mul hastingsByte (NewCurrency64 (10 ^ 12)) in
  match Currency_Cmp hastingsTB (Currency_Div SiacoinPrecision (NewCurrency64 2)) with
  | Lt => (0%N, None)
  | _ =>
    match Currency_Cmp hastingsTB SiacoinPrecision with
    | Lt => (1%N, None)
    | _ => Currency_Uint64 (Currency_Div hastingsTB SiacoinPrecision)
    end
  end.

(** [func StoragePriceToConsensus(siacoinsMonthTB uint64) (hastingsBlockByte types.Currency)] *)
Definition StoragePriceToConsensus (siacoinsMonthTB : N) : Currency :=
  let hastingsMonthTB := Currency_Mul (NewCurrency64 siacoinsMonthTB) SiacoinPrecision in
  let hastingsBlockTB := Currency_Div hastingsMonthTB (NewCurrency64 4320) in
  Currency_Div hastingsBlockTB (NewCurrency64 (10 ^ 12)).

(** [func StoragePriceToHuman(hastingsBlockByte types.Currency) (siacoinsMonthTB uint64, err error)] *)
Definition StoragePriceToHuman (hastingsBlockByte : Currency) : N * option CurrencyError :=
  let hastingsMonthByte := Currency_Mul hastingsBlockByte (NewCurrency64 4320) in
  let hastingsMonthTB := Currency_Mul hastingsMonthByte (NewCurrency64 (10 ^ 12)) in
  match Currency_Cmp hastingsMonthTB (Currency_Div SiacoinPrecision (NewCurrency64 2)) with
  | Lt => (0%N, None)
  | _ =>
    match Currency_Cmp hastingsMonthTB SiacoinPrecision with
    | Lt => (1%N, None)
    | _ => Currency_Uint64 (Currency_Div hastingsMonthTB SiacoinPrecision)
    end
  end.

(** The closed form of the two [...ToHuman] conversions, for an amount
    [x] in hastings per byte per unit of time: below half a unit it is 0,
    below one unit 1, above that the truncated quotient, or the overflow
    error when the quotient does not fit a [uint64]. *)
Definition round_price (x : N) : N * option CurrencyError :=
  if (x <? 5 * 10 ^ 11)%N then (0%N, None)
  else if (x <? 10 ^ 12)%N then (1%N, None)
  else if (x / 10 ^ 12 <? 2 ^ 64)%N then ((x / 10 ^ 12)%N, None)
  else (0%N, Some ErrUint64Overflow).

(** ** Reading a diff list cell by cell *)

(** The last diff of [L] about the cell [c], if any. *)
Fixpoint last_diff (c : UnlockHash * SiacoinOutputID) (L : list SiacoinOutputDiff)
    : option SiacoinOutputDiff :=
  match L with
  | [] => None
  | d :: L' =>
      match last_diff c L' with
      | Some x => Some x
      | None => if bool_decide (cell d = c) then Some d else None
      end
  end.

(** [recorded w d]: if [d]'s address is controlled by [w], [w] has an
    entry for [d]'s output. *)
Definition recorded (w : Wallet) (d : SiacoinOutputDiff) : Prop :=
  is_Some (keys w !! diff_addr d) -> is_Some (lookup_output w (diff_addr d) (ID d)).

(** ** Lemmas on the price conversions *)

Lemma cmp_lt_if {A} (x y : N) (a b : A) :
  match Currency_Cmp x y with Lt => a | _ => b end = if (x <? y)%N then a else b.
Proof.
  unfold Currency_Cmp.
  destruct (N.compare_spec x y), (N.ltb_spec x y); try done; lia.
Qed.

Lemma Uint64_if x :
  Currency_Uint64 x = if (x <? 2 ^ 64)%N then (x, None) else (0%N, Some ErrUint64Overflow).
Proof.
  unfold Currency_Uint64, MaxUint64.
  destruct (N.ltb_spec (2 ^ 64 - 1) x), (N.ltb_spec x (2 ^ 64)); try done; lia.
Qed.

Lemma div_scale (h : N) : (h * 10 ^ 12 / 10 ^ 24 = h / 10 ^ 12)%N.
Proof.
  replace (10 ^ 24)%N with (10 ^ 12 * 10 ^ 12)%N by reflexivity.
  apply N.Div0.div_mul_cancel_r. discriminate.
Qed.

(** The common tail of the two [...ToHuman] conversions. *)
Lemma human_shape (x : N) :
  (match Currency_Cmp (x * 10 ^ 12) (Currency_Div SiacoinPrecision (NewCurrency64 2)) with
   | Lt => (0%N, None)
   | _ => match Currency_Cmp (x * 10 ^ 12) SiacoinPrecision with
          | Lt => (1%N, None)
          | _ => Currency_Uint64 (Currency_Div (x * 10 ^ 12) SiacoinPrecision)
          end
   end) = round_price x.
Proof.
  unfold round_price.
  rewrite !cmp_lt_if, Uint64_if. unfold Currency_Div, SiacoinPrecision, NewCurrency64.
  rewrite div_scale.
  replace (10 ^ 24 / 2)%N with (5 * 10 ^ 11 * 10 ^ 12)%N by reflexivity.
  replace (10 ^ 24)%N with (10 ^ 12 * 10 ^ 12)%N by reflexivity.
  destruct (N.ltb_spec (x * 10 ^ 12) (5 * 10 ^ 11 * 10 ^ 12)),
           (N.ltb_spec x (5 * 10 ^ 11)); try lia.
  - done.
  - destruct (N.ltb_spec (x * 10 ^ 12) (10 ^ 12 * 10 ^ 12)),
             (N.ltb_spec x (10 ^ 12)); try lia; done.
Qed.

Lemma bandwidth_consensus_eq s : BandwidthPriceToConsensus s = (s * 10 ^ 12)%N.
Proof.
  unfold BandwidthPriceToConsensus, Currency_Mul, Currency_Div, NewCurrency64, SiacoinPrecision.
  replace (10 ^ 24)%N with (10 ^ 12 * 10 ^ 12)%N by reflexivity.
  rewrite N.mul_assoc. apply N.div_mul. discriminate.
Qed.

Lemma bandwidth_human_eq h : BandwidthPriceToHuman h = round_price h.
Proof. exact (human_shape h). Qed.

Lemma storage_consensus_eq s : StoragePriceToConsensus s = (s * 10 ^ 12 / 4320)%N.
Proof.
  unfold StoragePriceToConsensus, Currency_Mul, Currency_Div, NewCurrency64, SiacoinPrecision.
  rewrite N.Div0.div_div.
  replace (10 ^ 24)%N with (10 ^ 12 * 10 ^ 12)%N by reflexivity.
  rewrite N.mul_assoc. apply N.Div0.div_mul_cancel_r. discriminate.
Qed.

Lemma storage_human_eq h : StoragePriceToHuman h = round_price (h * 4320).
Proof. exact (human_shape (h * 4320)). Qed.

Lemma round_price_mono x1 x2 :
  (x1 <= x2)%N -> snd (round_price x2) = None ->
  snd (round_price x1) = None /\ (fst (round_price x1) <= fst (round_price x2))%N.
Proof.
  intros Hx. unfold round_price.
  pose proof (N.Div0.div_le_mono x1 x2 (10 ^ 12) Hx) as Hm.
  assert (H1 : (10 ^ 12 <= x2 -> 1 <= x2 / 10 ^ 12)%N).
  { intros H. rewrite <- (N.div_same (10 ^ 12)) by discriminate. by apply N.Div0.div_le_mono. }
  destruct (N.ltb_spec x2 (5 * 10 ^ 11)), (N.ltb_spec x1 (5 * 10 ^ 11)); try lia; cbn;
  destruct (N.ltb_spec x2 (10 ^ 12)), (N.ltb_spec x1 (10 ^ 12)); try lia; cbn;
  destruct (N.ltb_spec (x2 / 10 ^ 12) (2 ^ 64)); try discriminate; cbn; intros _;
  try destruct (N.ltb_spec (x1 / 10 ^ 12) (2 ^ 64)); cbn; split; try done; lia.
Qed.

(** ** Lemmas on diff lists read cell by cell *)

Section Extras.
Variable DEBUG : bool.

Lemma step_cell_idem c d dir o :
  step_cell DEBUG c d dir = ROk o -> step_cell DEBUG (Some o) d dir = ROk o.
Proof.
  unfold step_cell. destruct (decide (Direction d = dir)).
  - destruct c as [o'|].
    + destruct (spendable o') eqn:Hs; cbn; intros [= <-]; [by rewrite Hs|done].
    + by intros [= <-].
  - rewrite (bool_decide_false (Some o = None)) by discriminate. rewrite andb_false_r.
    destruct (DEBUG && _); [done|]. destruct c; [|done]. by intros [= <-].
Qed.

Lemma step_cell_spendable c d dir o :
  step_cell DEBUG c d dir = ROk o -> spendable o = bool_decide (Direction d = dir).
Proof.
  unfold step_cell. destruct (decide (Direction d = dir)) as [H|H].
  - rewrite bool_decide_true by done.
    destruct c as [o'|]; [|intros E; by injection E as <-].
    destruct (spendable o') eqn:Hs; cbn; intros E; injection E as <-; done.
  - rewrite (bool_decide_false (Direction d = dir)) by done.
    destruct (DEBUG && _); [done|]. destruct c; [|done]. intros E. by injection E as <-.
Qed.

Lemma put_cell_same w a i o :
  lookup_output w a i = Some o -> put_cell w a i o = w.
Proof.
  unfold put_cell, lookup_output. destruct (keys w !! a) as [key|] eqn:Hk; [|done].
  cbn. intros Ho. by apply set_output_id.
Qed.

Lemma applyDiff_idem w d dir w' :
  applyDiff DEBUG w d dir = ROk w' -> applyDiff DEBUG w' d dir = ROk w'.
Proof.
  rewrite !applyDiff_cell. destruct (keys w !! diff_addr d) as [key|] eqn:Hk.
  2:{ intros [= <-]. by rewrite Hk. }
  destruct (step_cell DEBUG _ d dir) as [o|] eqn:S; [|done]. cbn. intros [= <-].
  assert (P : is_Some (keys w !! diff_addr d)) by eauto.
  destruct (proj2 (put_cell_dom w (diff_addr d) (ID d) o (diff_addr d)) P) as [k' ->].
  rewrite (lookup_put_cell _ _ _ _ _ _ P), decide_True by done.
  rewrite (step_cell_idem _ _ _ _ S). cbn. f_equal. apply put_cell_same.
  rewrite (lookup_put_cell _ _ _ _ _ _ P). by rewrite decide_True.
Qed.

Lemma applyDiff_panic_iff w d dir m :
  applyDiff DEBUG w d dir = RPanic m <->
  is_Some (keys w !! diff_addr d) /\ Direction d <> dir /\
  lookup_output w (diff_addr d) (ID d) = None /\
  m = (if DEBUG then PanicDeleteMissing else NilPointerDereference).
Proof.
  unfold applyDiff, lookup_output. change (OutputUnlockHash (scod_output d)) with (diff_addr d).
  destruct (keys w !! diff_addr d) as [key|] eqn:Hk; cbn.
  2:{ split; [discriminate|]. intros [[? [=]] _]. }
  destruct (decide (Direction d = dir)) as [Hd|Hd].
  - split; [|intros (_ & ? & _); done].
    destruct (outputs key !! ID d) as [o|]; [destruct (negb _)|]; discriminate.
  - destruct (outputs key !! ID d) as [o|] eqn:Ho.
    + rewrite (bool_decide_false (Some o = None)) by discriminate. rewrite andb_false_r.
      split; [discriminate|]. intros (_ & _ & [=] & _).
    + rewrite bool_decide_true by done. rewrite andb_true_r.
      destruct DEBUG; (split; [intros [= <-]; eauto|intros (_ & _ & _ & ->); done]).
Qed.


Lemma applyAll_panic_msg dir L w m :
  applyAll DEBUG dir L w = RPanic m -> m = (if DEBUG then PanicDeleteMissing else NilPointerDereference).
Proof.
  revert w. induction L as [|d L IH]; intros w; cbn; [done|].
  destruct (applyDiff DEBUG w d dir) as [w1|m'] eqn:E; cbn; [apply IH|].
  intros [= <-]. by apply applyDiff_panic_iff in E as (_ & _ & _ & ->).
Qed.

Lemma applyAll_perm_ok dir L1 L2 w w' :
  NoDup (map cell L1) -> L1 ≡ₚ L2 ->
  applyAll DEBUG dir L1 w = ROk w' -> applyAll DEBUG dir L2 w = ROk w'.
Proof.
  intros HN HP. revert w w' HN. induction HP as [|x l l' HP IH|x y l|l l' l'' HP1 IH1 HP2 IH2];
    intros w w' HN.
  - done.
  - cbn. destruct (applyDiff DEBUG w x dir); [|done]. cbn. apply IH.
    cbn in HN. by apply NoDup_cons in HN as [_ ?].
  - cbn in HN |- *. apply NoDup_cons in HN as [Hy HN]. apply NoDup_cons in HN as [_ _].
    destruct (applyDiff DEBUG w y dir) as [w1|] eqn:E1; [|done]. cbn.
    destruct (applyDiff DEBUG w1 x dir) as [w2|] eqn:E2; [|done]. cbn. intros H.
    destruct (applyDiff_comm DEBUG w y dir x dir w1 w2) as (w1' & F1 & F2); [|done|done|].
    { intros Hc. apply Hy. rewrite Hc. by left. }
    by rewrite F1; cbn; rewrite F2.
  - intros H. apply IH2; [|by apply IH1].
    pose proof (Permutation_map cell HP1) as HM. by rewrite <- HM.
Qed.

Lemma applyAll_perm dir L1 L2 w :
  NoDup (map cell L1) -> L1 ≡ₚ L2 -> applyAll DEBUG dir L2 w = applyAll DEBUG dir L1 w.
Proof.
  intros HN HP.
  assert (HN2 : NoDup (map cell L2)).
  { pose proof (Permutation_map cell HP) as HM. by rewrite <- HM. }
  destruct (applyAll DEBUG dir L1 w) as [w1|m1] eqn:E1.
  - by apply (applyAll_perm_ok _ L1).
  - destruct (applyAll DEBUG dir L2 w) as [w2|m2] eqn:E2.
    + apply (applyAll_perm_ok _ L2 L1) in E2; [congruence|done|by symmetry].
    + apply applyAll_panic_msg in E1, E2. congruence.
Qed.

Lemma recorded_kept w w' L :
  entries_kept w w' -> (forall a, is_Some (keys w' !! a) -> is_Some (keys w !! a)) ->
  Forall (recorded w) L -> Forall (recorded w') L.
Proof.
  intros [_ Hek] Hdom HF. eapply Forall_impl; [exact HF|]. intros d Hd Hk'.
  destruct (Hd (Hdom _ Hk')) as [o Ho]. destruct (Hek _ _ _ Ho) as [b ->]. eauto.
Qed.

Lemma applyAll_recorded_ok dir L w :
  Forall (recorded w) L -> exists w', applyAll DEBUG dir L w = ROk w'.
Proof.
  revert w. induction L as [|d L IH]; intros w HF; cbn; [eauto|].
  apply Forall_cons in HF as [Hd HL].
  assert (E : exists w1, applyDiff DEBUG w d dir = ROk w1).
  { destruct (keys w !! diff_addr d) as [k|] eqn:K.
    - destruct (Hd ltac:(eauto)) as [o Ho].
      destruct (applyDiff_existing DEBUG w d dir o Ho) as (w1 & E1 & _). eauto.
    - exists w. by rewrite applyDiff_cell, K. }
  destruct E as [w1 E]. rewrite E. cbn. apply IH.
  apply (recorded_kept w); [by eapply applyDiff_entries_kept| |done].
  intros a. by apply (applyDiff_dom DEBUG w d dir).
Qed.

Lemma applyAll_records dir L w w' :
  applyAll DEBUG dir L w = ROk w' -> Forall (recorded w') L.
Proof.
  revert w. induction L as [|d L IH]; intros w; cbn; [constructor|].
  destruct (applyDiff DEBUG w d dir) as [w1|] eqn:E; [|done]. cbn. intros H.
  constructor; [|by eapply IH].
  intros Hk'. apply (applyAll_dom DEBUG dir L w1 w' _ H) in Hk' as Hk1.
  apply (applyDiff_dom DEBUG w d dir w1 _ E) in Hk1 as [k K].
  rewrite applyDiff_cell, K in E.
  destruct (step_cell DEBUG _ d dir) as [o|] eqn:S; [|done]. cbn in E. injection E as <-.
  assert (L1 : lookup_output (put_cell w (diff_addr d) (ID d) o) (diff_addr d) (ID d) = Some o).
  { rewrite lookup_put_cell by eauto. by rewrite decide_True. }
  destruct (proj2 (applyAll_entries_kept DEBUG _ _ _ _ H) _ _ _ L1) as [b ->]. eauto.
Qed.

(** A loop of [applyDiff] calls leaves the entries it does not name as
    they were. *)
Lemma applyAll_frame dir L w w' a i :
  applyAll DEBUG dir L w = ROk w' -> (a, i) ∉ map cell L ->
  lookup_output w' a i = lookup_output w a i.
Proof.
  revert w. induction L as [|d L IH]; intros w; cbn; [by intros [= ->]|].
  destruct (applyDiff DEBUG w d dir) as [w1|] eqn:E; [|done]. cbn. intros H Hn.
  rewrite (IH _ H); [|intros Hin; apply Hn; by right].
  apply (applyDiff_frame DEBUG _ _ _ _ _ _ E). intros Hc. apply Hn. rewrite Hc. by left.
Qed.

Lemma lookup_output_key w a i : is_Some (lookup_output w a i) -> is_Some (keys w !! a).
Proof. unfold lookup_output. destruct (keys w !! a); cbn; [eauto|by intros [? ?]]. Qed.

Lemma last_diff_app c L1 L2 :
  last_diff c (L1 ++ L2) = match last_diff c L2 with Some x => Some x | None => last_diff c L1 end.
Proof.
  induction L1 as [|d L1 IH]; cbn.
  - by destruct (last_diff c L2).
  - rewrite IH. by destruct (last_diff c L2).
Qed.

Lemma applyAll_last dir L w w' a i :
  applyAll DEBUG dir L w = ROk w' -> is_Some (keys w !! a) ->
  match last_diff (a, i) L with
  | Some d => exists o, lookup_output w' a i = Some o /\ spendable o = bool_decide (Direction d = dir)
  | None => lookup_output w' a i = lookup_output w a i
  end.
Proof.
  revert w. induction L as [|d L IH]; intros w; cbn; [by intros [= ->]|].
  destruct (applyDiff DEBUG w d dir) as [w1|] eqn:E; [|done]. cbn. intros H Ha.
  assert (Ha1 : is_Some (keys w1 !! a)) by (by apply (applyDiff_dom DEBUG w d dir w1 a E)).
  specialize (IH w1 H Ha1). destruct (last_diff (a, i) L) as [x|]; [done|].
  rewrite IH. case_bool_decide as Hc.
  - unfold cell in Hc. injection Hc as Ea Ei. subst a i.
    destruct Ha as [k K]. rewrite applyDiff_cell, K in E.
    destruct (step_cell DEBUG _ d dir) as [o|] eqn:S; [|done]. cbn in E. injection E as <-.
    exists o. split; [|by eapply step_cell_spendable].
    rewrite lookup_put_cell by eauto. by rewrite decide_True.
  - apply (applyDiff_frame DEBUG w d dir w1 a i E). congruence.
Qed.

Lemma int_wrap_range z : int_range (int_wrap z).
Proof. unfold int_range, int_wrap. pose proof (Z.mod_pos_bound (z + 2 ^ 63) (2 ^ 64)). lia. Qed.

Lemma reconcile_facts cc unc w w' :
  reconcile DEBUG cc unc w = ROk w' ->
  entries_kept w w' /\ (forall a, is_Some (keys w' !! a) <-> is_Some (keys w !! a)) /\
  unconfirmedDiffs w' = unc /\ Forall (recorded w') (SiacoinOutputDiffs cc ++ unc) /\
  age w' = int_wrap (int_wrap (age w - Z.of_nat (length (RevertedBlocks cc)))
                     + Z.of_nat (length (AppliedBlocks cc))).
Proof.
  unfold reconcile, mbind, Result_bind.
  destruct (applyAll DEBUG DiffRevert (unconfirmedDiffs w) w) as [w1|] eqn:E1; [|done].
  destruct (applyAll DEBUG DiffApply (SiacoinOutputDiffs cc) w1) as [w2|] eqn:E2; [|done].
  destruct (applyAll DEBUG DiffApply unc (mkWallet (keys w2) unc (age w2))) as [w3|] eqn:E3;
    [|done].
  intros [= <-].
  destruct (applyAll_meta DEBUG _ _ _ _ E1) as [_ A1].
  destruct (applyAll_meta DEBUG _ _ _ _ E2) as [_ A2].
  destruct (applyAll_meta DEBUG _ _ _ _ E3) as [U3 A3]. cbn in U3, A3.
  assert (D : forall a, is_Some (keys w3 !! a) <-> is_Some (keys w !! a)).
  { intros a. rewrite (applyAll_dom DEBUG _ _ _ _ a E3). cbn.
    rewrite (applyAll_dom DEBUG _ _ _ _ a E2). exact (applyAll_dom DEBUG _ _ _ _ a E1). }
  assert (K : entries_kept w (mkWallet (keys w3) (unconfirmedDiffs w3)
                 (int_wrap (int_wrap (age w3 - Z.of_nat (length (RevertedBlocks cc)))
                            + Z.of_nat (length (AppliedBlocks cc)))))).
  { eapply entries_kept_trans; [eapply applyAll_entries_kept, E1|].
    eapply entries_kept_trans; [eapply applyAll_entries_kept, E2|].
    apply (entries_kept_trans _ (mkWallet (keys w2) unc (age w2))); [by apply entries_kept_keys|].
    eapply entries_kept_trans; [eapply applyAll_entries_kept, E3|].
    by apply entries_kept_keys. }
  assert (R3 : Forall (recorded w3) (SiacoinOutputDiffs cc ++ unc)).
  { apply Forall_app. split; [|by eapply applyAll_records].
    apply (recorded_kept w2); [| |by eapply applyAll_records].
    - apply (entries_kept_trans _ (mkWallet (keys w2) unc (age w2)));
        [by apply entries_kept_keys|by eapply applyAll_entries_kept].
    - intros a Ha. apply (applyAll_dom DEBUG _ _ _ _ a E3) in Ha. exact Ha. }
  split; [exact K|]. split; [exact D|]. split; [exact U3|]. split.
  - apply (recorded_kept w3); [by apply entries_kept_keys|done|exact R3].
  - cbn. by rewrite A3, A2, A1.
Qed.


Lemma reconcile_cells cc unc w w' a i :
  reconcile DEBUG cc unc w = ROk w' -> is_Some (keys w !! a) ->
  match last_diff (a, i) (SiacoinOutputDiffs cc ++ unc), last_diff (a, i) (unconfirmedDiffs w) with
  | Some d, _ => exists o, lookup_output w' a i = Some o /\ spendable o = bool_decide (Direction d = DiffApply)
  | None, Some d => exists o, lookup_output w' a i = Some o /\ spendable o = bool_decide (Direction d = DiffRevert)
  | None, None => lookup_output w' a i = lookup_output w a i
  end.
Proof.
  unfold reconcile, mbind, Result_bind.
  destruct (applyAll DEBUG DiffRevert (unconfirmedDiffs w) w) as [w1|] eqn:E1; [|done].
  destruct (applyAll DEBUG DiffApply (SiacoinOutputDiffs cc) w1) as [w2|] eqn:E2; [|done].
  destruct (applyAll DEBUG DiffApply unc (mkWallet (keys w2) unc (age w2))) as [w3|] eqn:E3;
    [|done].
  intros [= <-] Ha.
  assert (Ha1 : is_Some (keys w1 !! a)) by (by apply (applyAll_dom DEBUG _ _ _ _ a E1)).
  assert (Ha2 : is_Some (keys w2 !! a)) by (by apply (applyAll_dom DEBUG _ _ _ _ a E2)).
  pose proof (applyAll_last _ _ _ _ a i E1 Ha) as P1.
  pose proof (applyAll_last _ _ _ _ a i E2 Ha1) as P2.
  pose proof (applyAll_last _ _ _ _ a i E3 Ha2) as P3.
  rewrite (lookup_output_keys w3 (mkWallet (keys w3) _ _)) by reflexivity.
  rewrite last_diff_app.
  destruct (last_diff (a, i) unc) as [d|]; [exact P3|].
  rewrite (lookup_output_keys w2 (mkWallet (keys w2) unc (age w2))) in P3 by reflexivity.
  rewrite P3.
  destruct (last_diff (a, i) (SiacoinOutputDiffs cc)) as [d|]; [exact P2|].
  rewrite P2. exact P1.
Qed.

Lemma lookup_output_None w a i : keys w !! a = None -> lookup_output w a i = None.
Proof. unfold lookup_output. by intros ->. Qed.

End Extras.


(** ** Concrete wallets used by witnesses and counterexamples *)

Definition addrA : UnlockHash := 7%N.

Definition mkdiff (dir : DiffDirection) (id : SiacoinOutputID) : SiacoinOutputDiff :=
  mkSiacoinOutputDiff dir id (mkSiacoinOutput 10 addrA).

(** A wallet controlling [addrA], with no outputs yet. *)
Definition wallet_A : Wallet := mkWallet {[ addrA := mkSpendableKey ∅ ]} [] 0.

(** A wallet controlling [addrA] with the spendable output [1]. *)
Definition wallet_A1 : Wallet :=
  mkWallet {[ addrA := mkSpendableKey {[ 1%N := mkKnownOutput 1 (mkSiacoinOutput 10 addrA) true 0 ]} ]}
    [] 0.

Definition cc_empty : ConsensusChange := mkConsensusChange [] [] [].

(** ** Claims *)

(** C1 (corrected). A call of [ReceiveTransactionPoolUpdate] that returns
    performs exactly the steps of [reconcile_steps], in order: every diff of
    the previous Pending Diff Set with [DiffRevert], every confirmed diff with
    [DiffApply], the replacement of the Pending Diff Set, every new
    unconfirmed diff with [DiffApply], the two age writes, and one final
    notification. A call in which an [applyDiff] panics stops inside the
    diff phases: its trace is a prefix of those phases and it never notifies. *)
Theorem RTPU_steps_in_order (DEBUG : bool) (cc : ConsensusChange) (txs : list Transaction)
    (unc : list SiacoinOutputDiff) (w : Wallet) :
  let '(r, t) := ReceiveTransactionPoolUpdate DEBUG cc txs unc w in
  (forall w', r = ROk (tt, w') ->
     t = reconcile_steps (unconfirmedDiffs w) cc unc /\ notify_count t = 1%nat /\
     last t = Some EvNotify) /\
  (forall e, r = RPanic e ->
     t `prefix_of` steps_before_age (unconfirmedDiffs w) cc unc /\ notify_count t = O).
Proof.
  pose proof (RTPU_spec DEBUG cc txs unc w) as H.
  destruct (reconcile DEBUG cc unc w) as [w'|e].
  - rewrite H. split; [|discriminate]. intros w'' _. split; [done|split].
    + unfold reconcile_steps. rewrite notify_count_app, notify_count_steps_before_age. done.
    + unfold reconcile_steps. by rewrite last_app.
  - destruct H as (t & -> & Ht). split; [discriminate|]. intros e' _.
    split; [done|]. eapply notify_count_prefix; [done|apply notify_count_steps_before_age].
Qed.

Lemma RTPU_steps_in_order_witness :
  let '(r, t) := ReceiveTransactionPoolUpdate true cc_empty [] [] wallet_A in
  t = reconcile_steps [] cc_empty [] /\ notify_count t = 1%nat.
Proof.
  pose proof (RTPU_steps_in_order true cc_empty [] [] wallet_A) as H.
  assert (Hr : fst (ReceiveTransactionPoolUpdate true cc_empty [] [] wallet_A) = ROk (tt, wallet_A))
    by (vm_compute; reflexivity).
  destruct (ReceiveTransactionPoolUpdate true cc_empty [] [] wallet_A) as [r t].
  cbn in Hr. destruct H as [H _]. destruct (H _ Hr) as (Ht & Hn & _).
  split; [exact Ht|exact Hn].
Defined.

(** C1 counterexample: a call whose confirmed diffs spend an output the
    wallet never recorded panics, in debug and in production builds, and
    the notification hook is not invoked. *)
Lemma RTPU_panic_skips_notify :
  let cc := mkConsensusChange [] [1%N] [mkdiff DiffRevert 5] in
  final (ReceiveTransactionPoolUpdate true cc [] [] wallet_A) = RPanic PanicDeleteMissing /\
  notify_count (snd (ReceiveTransactionPoolUpdate true cc [] [] wallet_A)) = O /\
  final (ReceiveTransactionPoolUpdate false cc [] [] wallet_A) = RPanic NilPointerDereference /\
  notify_count (snd (ReceiveTransactionPoolUpdate false cc [] [] wallet_A)) = O.
Proof. vm_compute. repeat split. Qed.

(** C3. A diff for a controlled address whose direction is the pass
    direction creates the entry (spendable, age 0) when it is missing,
    reactivates it when it is unspendable, and changes nothing when it is
    spendable; so applying it twice is the same as applying it once, and
    it leaves exactly one spendable entry and no other change. *)
Theorem applyDiff_matching_direction (DEBUG : bool) (w : Wallet) (d : SiacoinOutputDiff)
    (dir : DiffDirection) (key : spendableKey) :
  keys w !! diff_addr d = Some key -> Direction d = dir ->
  (outputs key !! ID d = None ->
     applyDiff DEBUG w d dir =
       ROk (set_output w (diff_addr d) key (ID d) (mkKnownOutput (ID d) (scod_output d) true 0))) /\
  (forall o, outputs key !! ID d = Some o -> spendable o = false ->
     applyDiff DEBUG w d dir = ROk (set_output w (diff_addr d) key (ID d) (set_spendable o true))) /\
  (forall o, outputs key !! ID d = Some o -> spendable o = true ->
     applyDiff DEBUG w d dir = ROk w) /\
  (exists w1 o1, applyDiff DEBUG w d dir = ROk w1 /\
     lookup_output w1 (diff_addr d) (ID d) = Some o1 /\ spendable o1 = true /\
     (forall a i, (a, i) <> (diff_addr d, ID d) -> lookup_output w1 a i = lookup_output w a i) /\
     (w2 ← applyDiff DEBUG w d dir; applyDiff DEBUG w2 d dir) = ROk w1).
Proof.
  intros Hk Hd.
  assert (Happ : forall w0 key0, keys w0 !! diff_addr d = Some key0 ->
    applyDiff DEBUG w0 d dir =
      match outputs key0 !! ID d with
      | Some output => if negb (spendable output)
                       then ROk (set_output w0 (diff_addr d) key0 (ID d) (set_spendable output true))
                       else ROk w0
      | None => ROk (set_output w0 (diff_addr d) key0 (ID d)
                       (mkKnownOutput (ID d) (scod_output d) true 0))
      end).
  { intros w0 key0 Hk0. unfold applyDiff.
    change (OutputUnlockHash (scod_output d)) with (diff_addr d).
    rewrite Hk0. by rewrite decide_True. }
  rewrite (Happ w key Hk).
  split; [by intros ->|]. split; [intros o -> ->; done|].
  split; [intros o -> ->; done|].
  assert (Hsame : forall w1 o1, lookup_output w1 (diff_addr d) (ID d) = Some o1 ->
            spendable o1 = true -> applyDiff DEBUG w1 d dir = ROk w1).
  { intros w1 o1 H1 Hs1. unfold lookup_output in H1.
    destruct (keys w1 !! diff_addr d) as [key1|] eqn:Hk1; cbn in H1; [|discriminate].
    rewrite (Happ w1 key1 Hk1), H1, Hs1. done. }
  destruct (outputs key !! ID d) as [o|] eqn:Ho.
  - destruct (spendable o) eqn:Hs; cbn.
    + exists w, o. split; [done|]. split; [by unfold lookup_output; rewrite Hk; cbn|].
      split; [done|]. split; [done|]. cbn. by apply (Hsame w o); [unfold lookup_output; rewrite Hk|].
    + set (w1 := set_output w (diff_addr d) key (ID d) (set_spendable o true)).
      assert (Hl : lookup_output w1 (diff_addr d) (ID d) = Some (set_spendable o true)).
      { unfold w1. rewrite (lookup_set_output _ _ _ _ _ _ _ Hk). by rewrite decide_True. }
      exists w1, (set_spendable o true). split; [done|]. split; [done|]. split; [done|].
      split; [|cbn; by apply (Hsame w1 _ Hl)].
      intros a i Hne. unfold w1. rewrite (lookup_set_output _ _ _ _ _ _ _ Hk).
      by rewrite decide_False by congruence.
  - set (w1 := set_output w (diff_addr d) key (ID d) (mkKnownOutput (ID d) (scod_output d) true 0)).
    assert (Hl : lookup_output w1 (diff_addr d) (ID d) =
                 Some (mkKnownOutput (ID d) (scod_output d) true 0)).
    { unfold w1. rewrite (lookup_set_output _ _ _ _ _ _ _ Hk). by rewrite decide_True. }
    eexists w1, _. split; [done|]. split; [exact Hl|]. split; [done|].
    split; [|cbn; by apply (Hsame w1 _ Hl)].
    intros a i Hne. unfold w1. rewrite (lookup_set_output _ _ _ _ _ _ _ Hk).
    by rewrite decide_False by congruence.
Qed.

Lemma applyDiff_matching_direction_witness :
  keys wallet_A !! diff_addr (mkdiff DiffApply 1) = Some (mkSpendableKey ∅) /\
  applyDiff true wallet_A (mkdiff DiffApply 1) DiffApply =
    ROk (set_output wallet_A addrA (mkSpendableKey ∅) 1 (mkKnownOutput 1 (mkSiacoinOutput 10 addrA) true 0)).
Proof.
  split; [reflexivity|].
  apply (applyDiff_matching_direction true wallet_A (mkdiff DiffApply 1) DiffApply (mkSpendableKey ∅));
    reflexivity.
Defined.

(** C4 (corrected). Reverting a diff for a controlled address whose entry
    does not exist panics in both builds: with the assertion in debug
    builds, and with a nil-pointer dereference of the missing entry in
    production builds. It never returns as a no-op. *)
Theorem applyDiff_missing_entry_panics (DEBUG : bool) (w : Wallet) (d : SiacoinOutputDiff)
    (dir : DiffDirection) (key : spendableKey) :
  keys w !! diff_addr d = Some key -> Direction d <> dir -> outputs key !! ID d = None ->
  applyDiff DEBUG w d dir = RPanic (if DEBUG then PanicDeleteMissing else NilPointerDereference).
Proof.
  intros Hk Hd Ho. unfold applyDiff.
  change (OutputUnlockHash (scod_output d)) with (diff_addr d).
  rewrite Hk, decide_False by done. rewrite Ho, bool_decide_true by done.
  by destruct DEBUG.
Qed.

Lemma applyDiff_missing_entry_panics_witness :
  applyDiff false wallet_A (mkdiff DiffRevert 5) DiffApply = RPanic NilPointerDereference.
Proof.
  apply (applyDiff_missing_entry_panics false wallet_A (mkdiff DiffRevert 5) DiffApply
           (mkSpendableKey ∅)); [reflexivity|discriminate|reflexivity].
Defined.

(** C4 counterexample: in a production build the call is not a no-op. *)
Lemma applyDiff_missing_entry_not_noop :
  applyDiff false wallet_A (mkdiff DiffRevert 5) DiffApply <> ROk wallet_A.
Proof. vm_compute. discriminate. Qed.

(** C5 (corrected). For an existing entry, [applyDiff d DiffApply] followed
    by [applyDiff d DiffRevert] never panics, touches only that entry and
    creates none, and leaves its [spendable] flag equal to whether [d] is a
    spending diff ([Direction d = DiffRevert]), whatever it was before: the
    flag is restored exactly when it already had that value. *)
Theorem applyDiff_forward_then_reverse (DEBUG : bool) (w : Wallet) (d : SiacoinOutputDiff)
    (o : knownOutput) :
  lookup_output w (diff_addr d) (ID d) = Some o ->
  exists w2, (w1 ← applyDiff DEBUG w d DiffApply; applyDiff DEBUG w1 d DiffRevert) = ROk w2 /\
    lookup_output w2 (diff_addr d) (ID d) =
      Some (set_spendable o (bool_decide (Direction d = DiffRevert))) /\
    (spendable o = bool_decide (Direction d = DiffRevert) ->
       lookup_output w2 (diff_addr d) (ID d) = Some o) /\
    (forall a i, (a, i) <> (diff_addr d, ID d) -> lookup_output w2 a i = lookup_output w a i) /\
    (forall a, is_Some (keys w2 !! a) <-> is_Some (keys w !! a)).
Proof.
  intros H.
  destruct (applyDiff_existing DEBUG w d DiffApply o H) as (w1 & E1 & L1 & O1 & K1).
  destruct (applyDiff_existing DEBUG w1 d DiffRevert _ L1) as (w2 & E2 & L2 & O2 & K2).
  exists w2. rewrite E1. cbn. split; [exact E2|].
  rewrite set_spendable_twice in L2. split; [exact L2|]. split.
  - intros Hs. rewrite L2, <- Hs. by rewrite set_spendable_same.
  - split.
    + intros a i Hne. rewrite O2, O1; done.
    + intros a. by rewrite K2, K1.
Qed.

Lemma applyDiff_forward_then_reverse_witness :
  lookup_output wallet_A1 addrA 1 = Some (mkKnownOutput 1 (mkSiacoinOutput 10 addrA) true 0) /\
  exists w2, (w1 ← applyDiff true wallet_A1 (mkdiff DiffApply 1) DiffApply;
              applyDiff true w1 (mkdiff DiffApply 1) DiffRevert) = ROk w2 /\
    lookup_output w2 addrA 1 = Some (mkKnownOutput 1 (mkSiacoinOutput 10 addrA) false 0).
Proof.
  split; [reflexivity|].
  destruct (applyDiff_forward_then_reverse true wallet_A1 (mkdiff DiffApply 1)
              (mkKnownOutput 1 (mkSiacoinOutput 10 addrA) true 0) eq_refl)
    as (w2 & E & L & _).
  exists w2. split; [exact E|exact L].
Defined.

(** C5 counterexample: the output [1] is spendable before; the forward diff
    that created it, applied and then reverted, leaves it unspendable. *)
Lemma applyDiff_forward_then_reverse_not_restored :
  spendable <$> lookup_output wallet_A1 addrA 1 = Some true /\
  (w1 ← applyDiff false wallet_A1 (mkdiff DiffApply 1) DiffApply;
   w2 ← applyDiff false w1 (mkdiff DiffApply 1) DiffRevert;
   ROk (spendable <$> lookup_output w2 addrA 1)) = ROk (Some false).
Proof. split; vm_compute; reflexivity. Qed.

(** C6. [applyDiff] and [ReceiveTransactionPoolUpdate] never delete a key
    or an entry, and never re-create an entry or change its id, payload or
    age: only its [spendable] flag changes. An entry marked unspendable is
    kept, and a later diff of the entry's own direction reactivates that
    same entry. *)
Theorem entries_created_once (DEBUG : bool) :
  (forall w d dir w', applyDiff DEBUG w d dir = ROk w' -> entries_kept w w') /\
  (forall cc txs unc w w',
     final (ReceiveTransactionPoolUpdate DEBUG cc txs unc w) = ROk w' -> entries_kept w w') /\
  (forall w d o dir, lookup_output w (diff_addr d) (ID d) = Some o -> dir <> Direction d ->
     exists w1 w2, applyDiff DEBUG w d dir = ROk w1 /\
       lookup_output w1 (diff_addr d) (ID d) = Some (set_spendable o false) /\
       applyDiff DEBUG w1 d (Direction d) = ROk w2 /\
       lookup_output w2 (diff_addr d) (ID d) = Some (set_spendable o true)).
Proof.
  split; [apply applyDiff_entries_kept|]. split.
  - intros cc txs unc w w' H.
    pose proof (RTPU_spec DEBUG cc txs unc w) as Hs.
    unfold reconcile in Hs. unfold mbind, Result_bind in Hs.
    destruct (applyAll DEBUG DiffRevert (unconfirmedDiffs w) w) as [w1|e] eqn:E1.
    2:{ destruct Hs as (t & Ht & _). by rewrite Ht in H. }
    destruct (applyAll DEBUG DiffApply (SiacoinOutputDiffs cc) w1) as [w2|e] eqn:E2.
    2:{ destruct Hs as (t & Ht & _). by rewrite Ht in H. }
    destruct (applyAll DEBUG DiffApply unc (mkWallet (keys w2) unc (age w2))) as [w3|e] eqn:E3.
    2:{ destruct Hs as (t & Ht & _). by rewrite Ht in H. }
    rewrite Hs in H. cbn in H. injection H as <-.
    eapply entries_kept_trans; [eapply applyAll_entries_kept, E1|].
    eapply entries_kept_trans; [eapply applyAll_entries_kept, E2|].
    apply (entries_kept_trans _ (mkWallet (keys w2) unc (age w2))); [by apply entries_kept_keys|].
    eapply entries_kept_trans; [eapply applyAll_entries_kept, E3|].
    apply entries_kept_keys. reflexivity.
  - intros w d o dir H Hd.
    destruct (applyDiff_existing DEBUG w d dir o H) as (w1 & E1 & L1 & _).
    rewrite bool_decide_false in L1 by congruence.
    destruct (applyDiff_existing DEBUG w1 d (Direction d) _ L1) as (w2 & E2 & L2 & _).
    rewrite bool_decide_true, set_spendable_twice in L2 by done.
    eauto 10.
Qed.

Lemma entries_created_once_witness :
  exists w1 w2, applyDiff true wallet_A1 (mkdiff DiffApply 1) DiffRevert = ROk w1 /\
    lookup_output w1 addrA 1 = Some (mkKnownOutput 1 (mkSiacoinOutput 10 addrA) false 0) /\
    applyDiff true w1 (mkdiff DiffApply 1) DiffApply = ROk w2 /\
    lookup_output w2 addrA 1 = Some (mkKnownOutput 1 (mkSiacoinOutput 10 addrA) true 0).
Proof.
  destruct (entries_created_once true) as (_ & _ & H).
  apply (H wallet_A1 (mkdiff DiffApply 1) (mkKnownOutput 1 (mkSiacoinOutput 10 addrA) true 0)
           DiffRevert); [reflexivity|discriminate].
Defined.

(** C7 (code bug). The previous Pending Diff Set is unwound in its own
    order, not in reverse. A pool that creates output [2] and then spends it
    leaves [2] recorded but unspendable; when the next update drops both
    transactions, the unwind marks [2] unspendable (undoing the creation)
    and then spendable again (undoing the spend): the dropped output ends
    up spendable. The Pending Diff Set itself is replaced (it is empty). *)
Theorem pending_unwind_reactivates_dropped_output :
  Forall (fun DEBUG =>
      (w1 ← final (ReceiveTransactionPoolUpdate DEBUG cc_empty []
                     [mkdiff DiffApply 2; mkdiff DiffRevert 2] wallet_A);
       w2 ← final (ReceiveTransactionPoolUpdate DEBUG cc_empty [] [] w1);
       ROk (spendable <$> lookup_output w1 addrA 2, unconfirmedDiffs w2,
            spendable <$> lookup_output w2 addrA 2))
      = ROk (Some false, [], Some true)) [true; false].
Proof. repeat constructor; vm_compute; reflexivity. Qed.

(** C8. [applyDiff] never changes the Age Counter, and a call of
    [ReceiveTransactionPoolUpdate] that returns changes it by
    [len(cc.AppliedBlocks) - len(cc.RevertedBlocks)] in Go [int] arithmetic,
    whatever the diffs are: exactly by that amount when the sum is an [int]. *)
Theorem age_adjusted_by_block_counts (DEBUG : bool) :
  (forall w d dir w', applyDiff DEBUG w d dir = ROk w' -> age w' = age w) /\
  (forall cc txs unc w w',
     final (ReceiveTransactionPoolUpdate DEBUG cc txs unc w) = ROk w' ->
     let delta := Z.of_nat (length (AppliedBlocks cc)) - Z.of_nat (length (RevertedBlocks cc)) in
     age w' = int_wrap (age w + delta) /\
     (int_range (age w + delta) -> age w' = age w + delta)).
Proof.
  split; [intros w d dir w' H; by apply (applyDiff_meta DEBUG w d dir)|].
  intros cc txs unc w w' H delta.
  pose proof (RTPU_spec DEBUG cc txs unc w) as Hs.
  unfold reconcile in Hs. unfold mbind, Result_bind in Hs.
  destruct (applyAll DEBUG DiffRevert (unconfirmedDiffs w) w) as [w1|e] eqn:E1.
  2:{ destruct Hs as (t & Ht & _). by rewrite Ht in H. }
  destruct (applyAll DEBUG DiffApply (SiacoinOutputDiffs cc) w1) as [w2|e] eqn:E2.
  2:{ destruct Hs as (t & Ht & _). by rewrite Ht in H. }
  destruct (applyAll DEBUG DiffApply unc (mkWallet (keys w2) unc (age w2))) as [w3|e] eqn:E3.
  2:{ destruct Hs as (t & Ht & _). by rewrite Ht in H. }
  rewrite Hs in H. cbn in H. injection H as <-. cbn.
  destruct (applyAll_meta _ _ _ _ _ E1) as [_ A1].
  destruct (applyAll_meta _ _ _ _ _ E2) as [_ A2].
  destruct (applyAll_meta _ _ _ _ _ E3) as [_ A3]. cbn in A3.
  rewrite A3, A2, A1, int_wrap_sub_add. split; [done|]. apply int_wrap_small.
Qed.

Lemma age_adjusted_by_block_counts_witness :
  age wallet_A = 0 /\
  exists w', final (ReceiveTransactionPoolUpdate true (mkConsensusChange [] [1%N] []) [] [] wallet_A)
             = ROk w' /\ age w' = 1.
Proof.
  split; [reflexivity|].
  destruct (age_adjusted_by_block_counts true) as [_ H].
  assert (E : final (ReceiveTransactionPoolUpdate true (mkConsensusChange [] [1%N] []) [] [] wallet_A)
              = ROk (mkWallet {[ addrA := mkSpendableKey ∅ ]} [] 1)) by (vm_compute; reflexivity).
  eexists; split; [exact E|].
  destruct (H _ _ _ _ _ E) as [_ Hr]. rewrite Hr; [reflexivity|].
  unfold int_range; cbn; lia.
Defined.

(** C9. A diff for an address the wallet does not control leaves the
    wallet unchanged, in both directions and both builds, without panic. *)
Theorem applyDiff_foreign_address (DEBUG : bool) (w : Wallet) (d : SiacoinOutputDiff) :
  keys w !! diff_addr d = None ->
  forall dir, applyDiff DEBUG w d dir = ROk w.
Proof.
  intros Hk dir. unfold applyDiff.
  change (OutputUnlockHash (scod_output d)) with (diff_addr d). by rewrite Hk.
Qed.

Lemma applyDiff_foreign_address_witness :
  applyDiff true wallet_A
    (mkSiacoinOutputDiff DiffRevert 3 (mkSiacoinOutput 10 9%N)) DiffApply = ROk wallet_A.
Proof. apply applyDiff_foreign_address. reflexivity. Defined.

(** C10. The transaction list passed to [ReceiveTransactionPoolUpdate] has
    no effect: the outcome (final wallet or panic) and the trace of steps,
    notification included, are the same for any two transaction lists. *)
Theorem RTPU_ignores_transactions (DEBUG : bool) (cc : ConsensusChange)
    (txs txs' : list Transaction) (unc : list SiacoinOutputDiff) (w : Wallet) :
  ReceiveTransactionPoolUpdate DEBUG cc txs unc w = ReceiveTransactionPoolUpdate DEBUG cc txs' unc w.
Proof. reflexivity. Qed.

(** C2 (corrected). Start from a wallet with an empty Pending Diff Set. The
    call [reconcile(C, 0, 0, U)] followed by [reconcile([], 0, 0, U')]
    returns, with Pending Diff Set [U'], the same Age Counter, the same
    addresses, and every output with the same [spendable] status as in the
    notional run "apply C, then apply U'", except that where that run has
    no entry for an output the result may hold an unspendable one, and
    each such output is the output of some diff of [U]; provided that
    run does not panic, [U] names each output at most once, and every diff
    of [U] changes its output's status on top of the state after [C]. *)
Theorem reconcile_full_cycle (DEBUG : bool) (w0 : Wallet) (C U U' : list SiacoinOutputDiff)
    (txs txs' : list Transaction) (Y N : Wallet) :
  unconfirmedDiffs w0 = [] -> int_range (age w0) ->
  applyAll DEBUG DiffApply C w0 = ROk Y ->
  NoDup (map cell U) -> Forall (fun d => flips Y d = true) U ->
  applyAll DEBUG DiffApply U' Y = ROk N ->
  exists S2,
    (S1 ← final (ReceiveTransactionPoolUpdate DEBUG (mkConsensusChange [] [] C) txs U w0);
     final (ReceiveTransactionPoolUpdate DEBUG (mkConsensusChange [] [] []) txs' U' S1)) = ROk S2 /\
    unconfirmedDiffs S2 = U' /\ age S2 = age w0 /\ ledger_rel N S2 /\
    (forall a i, lookup_output N a i = None -> is_Some (lookup_output S2 a i) ->
       exists d, d ∈ U /\ cell d = (a, i)).
Proof.
  intros Hp Ha EC Hnd Hf EN.
  destruct (cancel_all DEBUG U (mkWallet (keys Y) U (age Y)) Hnd Hf) as (Z & EZ & RZ).
  destruct (applyAll DEBUG DiffApply U (mkWallet (keys Y) U (age Y))) as [X|] eqn:EX; [|done].
  cbn in EZ.
  destruct (applyAll_meta DEBUG _ _ _ _ EC) as [_ AY].
  destruct (applyAll_meta DEBUG _ _ _ _ EX) as [PX AX]. cbn in PX, AX.
  destruct (applyAll_meta DEBUG _ _ _ _ EZ) as [PZ AZ].
  assert (Hw : forall x, int_range x -> int_wrap (int_wrap (x - 0) + 0) = x).
  { intros x Hx. rewrite int_wrap_sub_add. replace (x + (0 - 0)) with x by lia.
    by apply int_wrap_small. }
  assert (E1 : reconcile DEBUG (mkConsensusChange [] [] C) U w0 = ROk X).
  { unfold reconcile, mbind, Result_bind. rewrite Hp. cbn [applyAll SiacoinOutputDiffs]. rewrite EC, EX.
    cbn. change (Z.of_nat 0) with 0. rewrite Hw by (rewrite AX, AY; done). by destruct X. }
  assert (RY : ledger_rel Y (mkWallet (keys Z) U' (age Z))).
  { apply (ledger_rel_keys_r _ Z); [done|]. by apply (ledger_rel_keys_l (mkWallet (keys Y) U (age Y))). }
  destruct (sim_all DEBUG _ _ DiffApply U' N RY EN) as (Z2 & EZ2 & RZ2).
  destruct (applyAll_meta DEBUG _ _ _ _ EZ2) as [PZ2 AZ2]. cbn in PZ2, AZ2.
  exists (mkWallet (keys Z2) (unconfirmedDiffs Z2) (age w0)).
  assert (RS : ledger_rel N (mkWallet (keys Z2) (unconfirmedDiffs Z2) (age w0)))
    by (by apply (ledger_rel_keys_r _ Z2)).
  split; [|split; [done|split; [done|split; [exact RS|]]]].
  - rewrite final_RTPU, E1. unfold mbind, Result_bind. rewrite final_RTPU.
    unfold reconcile, mbind, Result_bind. rewrite PX, EZ. cbn [applyAll SiacoinOutputDiffs]. rewrite EZ2.
    cbn. change (Z.of_nat 0) with 0. rewrite AZ2, AZ, AX, AY, Hw by done. done.
  - intros a i HN HS.
    rewrite (lookup_output_keys Z2 (mkWallet (keys Z2) _ _)) in HS by reflexivity.
    destruct (decide ((a, i) ∈ map cell U')) as [Hin'|Hout'].
    { exfalso. apply list_elem_of_In, in_map_iff in Hin' as (d' & Hc & Hd').
      pose proof (proj1 (Forall_forall _ _) (applyAll_records DEBUG _ _ _ _ EN) d'
                    (proj2 (list_elem_of_In _ _) Hd')) as Rd.
      unfold cell in Hc. injection Hc as Ea Ei. subst a i.
      assert (Kz : is_Some (keys Z2 !! diff_addr d')) by (by apply (lookup_output_key _ _ (ID d'))).
      destruct (Rd (proj2 (proj1 RS (diff_addr d')) Kz)) as [? Ho]. congruence. }
    destruct (decide ((a, i) ∈ map cell U)) as [Hin|Hout].
    { apply list_elem_of_In, in_map_iff in Hin as (d & Hc & Hd).
      exists d. split; [by apply list_elem_of_In|done]. }
    exfalso.
    rewrite (applyAll_frame DEBUG _ _ _ _ a i EN Hout') in HN.
    rewrite (applyAll_frame DEBUG _ _ _ _ a i EZ2 Hout') in HS.
    rewrite (lookup_output_keys Z (mkWallet (keys Z) U' (age Z))) in HS by reflexivity.
    rewrite (applyAll_frame DEBUG _ _ _ _ a i EZ Hout) in HS.
    rewrite (applyAll_frame DEBUG _ _ _ _ a i EX Hout) in HS.
    rewrite (lookup_output_keys Y (mkWallet (keys Y) U (age Y))) in HS by reflexivity.
    rewrite HN in HS. by destruct HS.
Qed.

(** The state after the confirmed diffs in [reconcile_full_cycle_witness]. *)
Definition cycle_C : list SiacoinOutputDiff := [mkdiff DiffApply 1].
Definition cycle_U : list SiacoinOutputDiff := [mkdiff DiffApply 2].
Definition cycle_U' : list SiacoinOutputDiff := [mkdiff DiffApply 3].
Definition result_or (r : Result Wallet) (w : Wallet) : Wallet :=
  match r with ROk w' => w' | RPanic _ => w end.
Definition cycle_Y : Wallet := result_or (applyAll true DiffApply cycle_C wallet_A) wallet_A.
Definition cycle_N : Wallet := result_or (applyAll true DiffApply cycle_U' cycle_Y) wallet_A.

Lemma reconcile_full_cycle_witness :
  exists S2,
    (S1 ← final (ReceiveTransactionPoolUpdate true (mkConsensusChange [] [] cycle_C) [] cycle_U wallet_A);
     final (ReceiveTransactionPoolUpdate true (mkConsensusChange [] [] []) [] cycle_U' S1)) = ROk S2 /\
    unconfirmedDiffs S2 = cycle_U' /\ age S2 = 0 /\ ledger_rel cycle_N S2 /\
    (forall a i, lookup_output cycle_N a i = None -> is_Some (lookup_output S2 a i) ->
       exists d, d ∈ cycle_U /\ cell d = (a, i)).
Proof.
  destruct (reconcile_full_cycle true wallet_A cycle_C cycle_U cycle_U' [] [] cycle_Y cycle_N)
    as (S2 & E & P & A & R & O).
  - reflexivity.
  - unfold int_range. cbn. lia.
  - vm_compute. reflexivity.
  - apply NoDup_singleton.
  - constructor; [vm_compute; reflexivity|constructor].
  - vm_compute. reflexivity.
  - exists S2. split; [exact E|]. split; [exact P|]. split; [exact A|]. split; [exact R|exact O].
Defined.

(** C2 counterexamples. (1) A pending diff that repeats a confirmed one is
    unwound with it: output [1] ends unspendable, while "apply C, then
    apply U'" leaves it spendable. (2) An output created only by the
    pending set stays behind as an unspendable entry. *)
Lemma reconcile_full_cycle_differs :
  (S1 ← final (ReceiveTransactionPoolUpdate false (mkConsensusChange [] [] [mkdiff DiffApply 1]) []
                 [mkdiff DiffApply 1] wallet_A);
   S2 ← final (ReceiveTransactionPoolUpdate false cc_empty [] [] S1);
   ROk (spendable <$> lookup_output S2 addrA 1)) = ROk (Some false) /\
  (w ← applyAll false DiffApply [mkdiff DiffApply 1] wallet_A;
   N ← applyAll false DiffApply [] w;
   ROk (spendable <$> lookup_output N addrA 1)) = ROk (Some true) /\
  (S1 ← final (ReceiveTransactionPoolUpdate false cc_empty [] [mkdiff DiffApply 3] wallet_A);
   S2 ← final (ReceiveTransactionPoolUpdate false cc_empty [] [] S1);
   ROk (spendable <$> lookup_output S2 addrA 3)) = ROk (Some false) /\
  (N ← applyAll false DiffApply [] wallet_A; ROk (lookup_output N addrA 3)) = ROk None.
Proof. vm_compute. repeat split. Qed.

(** ** Further properties of the wallet code *)

(** [wallet_A1] after a confirmed spend of output [1] and a pending
    creation of output [2]. *)
Definition wallet_B : Wallet :=
  mkWallet {[ addrA := mkSpendableKey
                {[ 1%N := mkKnownOutput 1 (mkSiacoinOutput 10 addrA) false 0;
                   2%N := mkKnownOutput 2 (mkSiacoinOutput 10 addrA) true 0 ]} ]}
    [mkdiff DiffApply 2] 0.

Definition cc_spend1 : ConsensusChange := mkConsensusChange [] [] [mkdiff DiffRevert 1].

(** [wallet_A] after a pool update that creates and spends output [2]. *)
Definition wallet_C : Wallet :=
  mkWallet {[ addrA := mkSpendableKey {[ 2%N := mkKnownOutput 2 (mkSiacoinOutput 10 addrA) false 0 ]} ]}
    [mkdiff DiffApply 2; mkdiff DiffRevert 2] 0.

(** [applyDiff] panics exactly when the diff is for a controlled address,
    its direction is not the pass direction and the wallet has no entry for
    its output; the panic is the [build.DEBUG] assertion in debug builds
    and the nil-pointer dereference otherwise. *)
Theorem applyDiff_panics_exactly (DEBUG : bool) (w : Wallet) (d : SiacoinOutputDiff)
    (dir : DiffDirection) (m : PanicMsg) :
  applyDiff DEBUG w d dir = RPanic m <->
  is_Some (keys w !! diff_addr d) /\ Direction d <> dir /\
  lookup_output w (diff_addr d) (ID d) = None /\
  m = (if DEBUG then PanicDeleteMissing else NilPointerDereference).
Proof. apply applyDiff_panic_iff. Qed.

(** Applying a diff a second time in the same direction changes nothing. *)
Theorem applyDiff_idempotent (DEBUG : bool) (w : Wallet) (d : SiacoinOutputDiff)
    (dir : DiffDirection) (w' : Wallet) :
  applyDiff DEBUG w d dir = ROk w' -> applyDiff DEBUG w' d dir = ROk w'.
Proof. apply applyDiff_idem. Qed.

Lemma applyDiff_idempotent_witness :
  applyDiff true wallet_A1 (mkdiff DiffApply 1) DiffApply = ROk wallet_A1.
Proof.
  apply (applyDiff_idempotent true wallet_A (mkdiff DiffApply 1) DiffApply wallet_A1).
  vm_compute. reflexivity.
Defined.

(** A loop of [applyDiff] calls over diffs about pairwise different
    outputs gives the same result, or the same panic, in any order. *)
Theorem applyAll_order_independent (DEBUG : bool) (dir : DiffDirection)
    (L1 L2 : list SiacoinOutputDiff) (w : Wallet) :
  NoDup (map cell L1) -> L1 ≡ₚ L2 -> applyAll DEBUG dir L2 w = applyAll DEBUG dir L1 w.
Proof. apply applyAll_perm. Qed.

Lemma applyAll_order_independent_witness :
  applyAll true DiffApply [mkdiff DiffApply 2; mkdiff DiffRevert 1] wallet_A1 =
  applyAll true DiffApply [mkdiff DiffRevert 1; mkdiff DiffApply 2] wallet_A1.
Proof.
  apply (applyAll_order_independent true DiffApply
           [mkdiff DiffRevert 1; mkdiff DiffApply 2] [mkdiff DiffApply 2; mkdiff DiffRevert 1]).
  - apply (bool_decide_unpack _). vm_compute. reflexivity.
  - apply perm_swap.
Defined.

(** After a successful [ReceiveTransactionPoolUpdate], the entry of each
    output of a controlled address is decided by the last diff about it:
    the last one among the confirmed and the new unconfirmed diffs, applied
    forward, makes it spendable exactly when it creates the output;
    otherwise the last one of the previous Pending Diff Set, reverted,
    makes it spendable exactly when it spends the output; an output no
    diff mentions is unchanged. *)
Theorem RTPU_entry_status (DEBUG : bool) (cc : ConsensusChange) (txs : list Transaction)
    (unc : list SiacoinOutputDiff) (w w' : Wallet) (a : UnlockHash) (i : SiacoinOutputID) :
  final (ReceiveTransactionPoolUpdate DEBUG cc txs unc w) = ROk w' -> is_Some (keys w !! a) ->
  match last_diff (a, i) (SiacoinOutputDiffs cc ++ unc), last_diff (a, i) (unconfirmedDiffs w) with
  | Some d, _ => exists o, lookup_output w' a i = Some o /\ spendable o = bool_decide (Direction d = DiffApply)
  | None, Some d => exists o, lookup_output w' a i = Some o /\ spendable o = bool_decide (Direction d = DiffRevert)
  | None, None => lookup_output w' a i = lookup_output w a i
  end.
Proof. rewrite final_RTPU. apply reconcile_cells. Qed.

Lemma RTPU_entry_status_witness :
  exists o, lookup_output wallet_B addrA 1 = Some o /\ spendable o = false.
Proof.
  exact (RTPU_entry_status true cc_spend1 [] [mkdiff DiffApply 2] wallet_A1 wallet_B addrA 1
           ltac:(vm_compute; reflexivity) ltac:(vm_compute; eauto)).
Defined.

(** [ReceiveTransactionPoolUpdate] never adds or removes a controlled
    address. *)
Theorem RTPU_keeps_addresses (DEBUG : bool) (cc : ConsensusChange) (txs : list Transaction)
    (unc : list SiacoinOutputDiff) (w w' : Wallet) :
  final (ReceiveTransactionPoolUpdate DEBUG cc txs unc w) = ROk w' ->
  forall a, is_Some (keys w' !! a) <-> is_Some (keys w !! a).
Proof. rewrite final_RTPU. intros H. apply (reconcile_facts _ _ _ _ _ H). Qed.

Lemma RTPU_keeps_addresses_witness :
  is_Some (keys wallet_B !! addrA) <-> is_Some (keys wallet_A1 !! addrA).
Proof.
  exact (RTPU_keeps_addresses true cc_spend1 [] [mkdiff DiffApply 2] wallet_A1 wallet_B
           ltac:(vm_compute; reflexivity) addrA).
Defined.

(** After a successful [ReceiveTransactionPoolUpdate], the unwind loop of
    the next call (reverting the stored Pending Diff Set) never panics:
    every stored diff for a controlled address has its entry. *)
Theorem RTPU_next_unwind_safe (DEBUG : bool) (cc : ConsensusChange) (txs : list Transaction)
    (unc : list SiacoinOutputDiff) (w w1 : Wallet) :
  final (ReceiveTransactionPoolUpdate DEBUG cc txs unc w) = ROk w1 ->
  exists w2, applyAll DEBUG DiffRevert (unconfirmedDiffs w1) w1 = ROk w2.
Proof.
  rewrite final_RTPU. intros H. destruct (reconcile_facts _ _ _ _ _ H) as (_ & _ & U & R & _).
  apply (applyAll_recorded_ok DEBUG). rewrite U. by apply Forall_app in R as [_ ?].
Qed.

Lemma RTPU_next_unwind_safe_witness :
  exists w2, applyAll false DiffRevert (unconfirmedDiffs wallet_C) wallet_C = ROk w2.
Proof.
  apply (RTPU_next_unwind_safe false cc_empty [] [mkdiff DiffApply 2; mkdiff DiffRevert 2] wallet_A).
  vm_compute. reflexivity.
Defined.

(** Delivering the same update twice, when it carries no block, leaves
    the wallet as the first delivery left it. *)
Theorem RTPU_redelivery_noop (DEBUG : bool) (cc : ConsensusChange) (txs txs' : list Transaction)
    (unc : list SiacoinOutputDiff) (w w1 : Wallet) :
  RevertedBlocks cc = [] -> AppliedBlocks cc = [] ->
  final (ReceiveTransactionPoolUpdate DEBUG cc txs unc w) = ROk w1 ->
  final (ReceiveTransactionPoolUpdate DEBUG cc txs' unc w1) = ROk w1.
Proof.
  intros Hr Ha. rewrite !final_RTPU. intros H1.
  destruct (reconcile_facts _ _ _ _ _ H1) as (K1 & D1 & U1 & R1 & A1).
  (* the second call returns *)
  assert (Hok : exists w2, reconcile DEBUG cc unc w1 = ROk w2).
  { unfold reconcile, mbind, Result_bind.
    assert (Ru : Forall (recorded w1) (unconfirmedDiffs w1))
      by (rewrite U1; by apply Forall_app in R1 as [_ ?]).
    destruct (applyAll_recorded_ok DEBUG DiffRevert _ _ Ru) as [x1 E1]. rewrite E1.
    assert (Rx1 : Forall (recorded x1) (SiacoinOutputDiffs cc ++ unc)).
    { apply (recorded_kept w1); [by eapply applyAll_entries_kept| |done].
      intros a. by apply (applyAll_dom DEBUG _ _ _ _ a E1). }
    apply Forall_app in Rx1 as [Rc Ru'].
    destruct (applyAll_recorded_ok DEBUG DiffApply _ _ Rc) as [x2 E2]. rewrite E2.
    assert (Rx2 : Forall (recorded (mkWallet (keys x2) unc (age x2))) unc).
    { apply (recorded_kept x1); [| |done].
      - apply (entries_kept_trans _ x2); [by eapply applyAll_entries_kept|].
        by apply entries_kept_keys.
      - intros a Hx. apply (applyAll_dom DEBUG _ _ _ _ a E2). exact Hx. }
    destruct (applyAll_recorded_ok DEBUG DiffApply _ _ Rx2) as [x3 E3]. rewrite E3. eauto. }
  destruct Hok as [w2 H2]. rewrite H2. f_equal.
  destruct (reconcile_facts _ _ _ _ _ H2) as (K2 & D2 & U2 & _ & A2).
  apply wallet_ext.
  - congruence.
  - rewrite A2, Hr, Ha, A1, Hr, Ha. cbn. rewrite !Z.sub_0_r, !Z.add_0_r.
    rewrite !(int_wrap_small (int_wrap _)) by apply int_wrap_range. reflexivity.
  - exact D2.
  - intros a i.
    destruct (keys w1 !! a) as [k|] eqn:Kw1.
    2:{ rewrite (lookup_output_None w1) by done. apply lookup_output_None.
        destruct (keys w2 !! a) eqn:Kw2; [|done]. exfalso.
        destruct (proj1 (D2 a) ltac:(eauto)) as [? [=]]. congruence. }
    assert (Hw : is_Some (keys w !! a)) by (apply D1; eauto).
    pose proof (reconcile_cells DEBUG _ _ _ _ a i H1 Hw) as C1.
    pose proof (reconcile_cells DEBUG _ _ _ _ a i H2 ltac:(eauto)) as C2.
    rewrite U1 in C2.
    destruct (last_diff (a, i) (SiacoinOutputDiffs cc ++ unc)) as [d|] eqn:L.
    + destruct C1 as (o1 & L1 & S1). destruct C2 as (o2 & L2 & S2).
      destruct (proj2 K2 _ _ _ L1) as [b Hb]. rewrite L2 in Hb. injection Hb as ->.
      rewrite L2, L1. cbn in S2. rewrite S2, <- S1. by rewrite set_spendable_same.
    + rewrite last_diff_app in L.
      destruct (last_diff (a, i) unc); [discriminate|]. exact C2.
Qed.

Lemma RTPU_redelivery_noop_witness :
  final (ReceiveTransactionPoolUpdate true cc_spend1 [] [mkdiff DiffApply 2] wallet_B) = ROk wallet_B.
Proof.
  apply (RTPU_redelivery_noop true cc_spend1 [] [] [mkdiff DiffApply 2] wallet_A1 wallet_B);
    [reflexivity|reflexivity|vm_compute; reflexivity].
Defined.

(** ** Further properties of the host price conversions *)

(** Converting a bandwidth price to consensus units is exact: it multiplies
    by 10^12 and never rounds. *)
Theorem BandwidthPriceToConsensus_exact (siacoinsTB : N) :
  BandwidthPriceToConsensus siacoinsTB = (siacoinsTB * 10 ^ 12)%N.
Proof. apply bandwidth_consensus_eq. Qed.

(** A consensus bandwidth price below half a siacoin per terabyte gives 0,
    one below a whole siacoin gives 1; from one siacoin up the quotient is
    truncated, not rounded, and an error is returned exactly when it does
    not fit a [uint64]. *)
Theorem BandwidthPriceToHuman_rounding (hastingsByte : Currency) :
  BandwidthPriceToHuman hastingsByte =
  if (hastingsByte <? 5 * 10 ^ 11)%N then (0%N, None)
  else if (hastingsByte <? 10 ^ 12)%N then (1%N, None)
  else if (hastingsByte / 10 ^ 12 <? 2 ^ 64)%N then ((hastingsByte / 10 ^ 12)%N, None)
  else (0%N, Some ErrUint64Overflow).
Proof. apply bandwidth_human_eq. Qed.

(** Every [uint64] bandwidth price survives the round trip to consensus
    units and back. *)
Theorem BandwidthPrice_round_trip (s : N) :
  (s < 2 ^ 64)%N -> BandwidthPriceToHuman (BandwidthPriceToConsensus s) = (s, None).
Proof.
  intros Hs. rewrite bandwidth_human_eq, bandwidth_consensus_eq. unfold round_price.
  rewrite N.div_mul by discriminate.
  destruct (N.ltb_spec (s * 10 ^ 12) (5 * 10 ^ 11)).
  - f_equal. lia.
  - destruct (N.ltb_spec (s * 10 ^ 12) (10 ^ 12)); [lia|].
    destruct (N.ltb_spec s (2 ^ 64)); [done|lia].
Qed.

Lemma BandwidthPrice_round_trip_witness :
  BandwidthPriceToHuman (BandwidthPriceToConsensus 5) = (5%N, None).
Proof. apply BandwidthPrice_round_trip. vm_compute. reflexivity. Defined.

(** The two truncating divisions of [StoragePriceToConsensus] round only
    once: the result is the floor of [siacoinsMonthTB * 10^12 / 4320]. *)
Theorem StoragePriceToConsensus_single_rounding (siacoinsMonthTB : N) :
  StoragePriceToConsensus siacoinsMonthTB = (siacoinsMonthTB * 10 ^ 12 / 4320)%N.
Proof. apply storage_consensus_eq. Qed.

(** [StoragePriceToHuman] scales by the 4320 blocks of a month, then gives
    0 below half a siacoin, 1 below a whole one, the truncated quotient
    above, and an error exactly when that quotient does not fit a
    [uint64]. *)
Theorem StoragePriceToHuman_rounding (hastingsBlockByte : Currency) :
  StoragePriceToHuman hastingsBlockByte =
  if (hastingsBlockByte * 4320 <? 5 * 10 ^ 11)%N then (0%N, None)
  else if (hastingsBlockByte * 4320 <? 10 ^ 12)%N then (1%N, None)
  else if (hastingsBlockByte * 4320 / 10 ^ 12 <? 2 ^ 64)%N
  then ((hastingsBlockByte * 4320 / 10 ^ 12)%N, None)
  else (0%N, Some ErrUint64Overflow).
Proof. apply storage_human_eq. Qed.

(** The storage price round trip loses one siacoin per month per terabyte
    for every [uint64] price of at least 2 that is not a multiple of 27
    (10^12 / 4320 is not whole); 0, 1 and multiples of 27 survive. *)
Theorem StoragePrice_round_trip_lossy (s : N) :
  (s < 2 ^ 64)%N ->
  StoragePriceToHuman (StoragePriceToConsensus s) =
  (if (s mod 27 =? 0)%N || (s <=? 1)%N then s else (s - 1)%N, None).
Proof.
  intros Hs. rewrite storage_human_eq, storage_consensus_eq. unfold round_price.
  set (q := (s * 10 ^ 12 / 4320)%N).
  pose proof (N.div_mod (s * 10 ^ 12) 4320 ltac:(discriminate)) as Hd.
  pose proof (N.mod_lt (s * 10 ^ 12) 4320 ltac:(discriminate)) as Hr.
  fold q in Hd. set (r := ((s * 10 ^ 12) mod 4320)%N) in *.
  pose proof (N.div_mod s 27 ltac:(discriminate)) as Hs27.
  pose proof (N.mod_lt s 27 ltac:(discriminate)) as Ht.
  set (k := (s / 27)%N) in *. set (t := (s mod 27)%N) in *.
  assert (Hrt : r = 0%N <-> t = 0%N) by lia.
  destruct (N.ltb_spec (q * 4320) (5 * 10 ^ 11)).
  { assert (s = 0%N) as -> by lia. reflexivity. }
  destruct (N.ltb_spec (q * 4320) (10 ^ 12)).
  { assert (s = 1%N) as -> by lia. reflexivity. }
  assert (Hq : (q * 4320 / 10 ^ 12 = if (t =? 0)%N || (s <=? 1)%N then s else s - 1)%N).
  { destruct (N.eqb_spec t 0), (N.leb_spec s 1); cbn.
    - symmetry. apply (N.div_unique _ _ _ 0); lia.
    - symmetry. apply (N.div_unique _ _ _ 0); lia.
    - symmetry. apply (N.div_unique _ _ _ (q * 4320 - 10 ^ 12 * s)); lia.
    - symmetry. apply (N.div_unique _ _ _ (q * 4320 - 10 ^ 12 * (s - 1))); lia. }
  rewrite Hq. destruct (N.ltb_spec (if (t =? 0)%N || (s <=? 1)%N then s else (s - 1))%N (2 ^ 64));
    [reflexivity|].
  destruct ((t =? 0)%N || (s <=? 1)%N); lia.
Qed.

Lemma StoragePrice_round_trip_lossy_witness :
  StoragePriceToHuman (StoragePriceToConsensus 28) = (27%N, None) /\
  StoragePriceToHuman (StoragePriceToConsensus 27) = (27%N, None).
Proof.
  split; rewrite StoragePrice_round_trip_lossy; try reflexivity; vm_compute; reflexivity.
Defined.

(** Both [...ToHuman] conversions are monotone: a larger consensus price
    that converts without error never gives a smaller human price, and a
    smaller one converts without error too. *)
Theorem human_prices_monotone (h1 h2 : Currency) :
  (h1 <= h2)%N ->
  (snd (BandwidthPriceToHuman h2) = None ->
   snd (BandwidthPriceToHuman h1) = None /\
   (fst (BandwidthPriceToHuman h1) <= fst (BandwidthPriceToHuman h2))%N) /\
  (snd (StoragePriceToHuman h2) = None ->
   snd (StoragePriceToHuman h1) = None /\
   (fst (StoragePriceToHuman h1) <= fst (StoragePriceToHuman h2))%N).
Proof.
  intros H. rewrite !bandwidth_human_eq, !storage_human_eq. split.
  - apply (round_price_mono h1 h2 H).
  - apply (round_price_mono (h1 * 4320) (h2 * 4320)). lia.
Qed.

Lemma human_prices_monotone_witness :
  (fst (BandwidthPriceToHuman 1000000000000) <= fst (BandwidthPriceToHuman 3000000000000))%N /\
  (fst (StoragePriceToHuman 1000000000000) <= fst (StoragePriceToHuman 3000000000000))%N.
Proof.
  destruct (human_prices_monotone 1000000000000 3000000000000) as [B S]; [lia|].
  split; [apply B|apply S]; vm_compute; reflexivity.
Defined.
